(** * Genetic basketball solver: a shallow embedding of [main.py]

    The simulation core of the program (classes [Basketball], [Generation]
    and [Solver]) is embedded as Rocq functions and its specification is
    checked against them.

    Modelling conventions.
    - Python floats and [pygame.Vector2] components are real numbers: all
      arithmetic is exact, rounding is not modelled.
    - Python integers that count or index ([gene_i], [last_gene],
      [generation_n], the population size) are [nat]; gene values are [Z].
    - A raised exception ([IndexError], [ValueError], [AttributeError]) is
      [None]; nothing in the program catches one, so a raised exception ends
      the run.
    - The process-wide generator of the [random] module is an explicit state
      threaded through every function that draws from it.
    - The pygame window, the assets and the [draw] methods are presentation
      and are left out; they write [fframe] and [frame] only. *)

From Stdlib Require Import Reals Lra Lia List ZArith Bool Arith.
Import ListNotations.

Open Scope R_scope.

(** ** Comparisons of floats as booleans *)

Definition Rltb (a b : R) : bool := if Rlt_dec a b then true else false.
Definition Rgtb (a b : R) : bool := if Rgt_dec a b then true else false.
Definition Rleb (a b : R) : bool := if Rle_dec a b then true else false.
Definition Reqb (a b : R) : bool := if Req_dec_T a b then true else false.

(** ** [pygame.Vector2] *)

Module Vector2.

Record t : Type := mk { x : R; y : R }.

(** [pygame.Vector2(0)] *)
Definition zero : t := mk 0 0.

Definition add (a b : t) : t := mk (x a + x b) (y a + y b).
Definition sub (a b : t) : t := mk (x a - x b) (y a - y b).
Definition scale (a : t) (k : R) : t := mk (x a * k) (y a * k).
Definition dot (a b : t) : R := x a * x b + y a * y b.
Definition length (a : t) : R := sqrt (x a * x a + y a * y a).

(** [normalize] raises [ValueError] on a vector of length zero. *)
Definition normalize (a : t) : option t :=
  if Req_dec_T (length a) 0 then None
  else Some (mk (x a / length a) (y a / length a)).

(** [rotate] turns the vector counter-clockwise by an angle in degrees. *)
Definition rotate (a : t) (degrees : R) : t :=
  let r := degrees * PI / 180 in
  mk (x a * cos r - y a * sin r) (x a * sin r + y a * cos r).

(** [reflect]: v' = v - 2 (v . n) n. *)
Definition reflect (v n : t) : t := sub v (scale n (2 * dot v n)).

End Vector2.

(** ** The [random] module

    The generator is a tape of raw draws and a cursor.  [random()] is a
    53-bit fraction in [0, 1); [randint a b] is [a] plus a draw below the
    width [b - a + 1]. *)

Module Random.

Record t : Type := mk { tape : nat -> Z; cursor : nat }.

Definition advance (k : nat) (r : t) : t := mk (tape r) (cursor r + k).

Definition raw (r : t) : Z := tape r (cursor r).

Definition random (r : t) : R * t :=
  (IZR (raw r mod 2 ^ 53) / IZR (2 ^ 53), advance 1 r).

Definition randint (a b : Z) (r : t) : Z * t :=
  ((a + raw r mod (b - a + 1))%Z, advance 1 r).

End Random.

(** ** Computations that draw random numbers and may raise *)

Definition M (A : Type) : Type := Random.t -> option (A * Random.t).

Definition ret {A} (a : A) : M A := fun r => Some (a, r).

Definition bind {A B} (m : M A) (f : A -> M B) : M B :=
  fun r => match m r with
           | Some (a, r') => f a r'
           | None => None
           end.

Definition raise {A} : M A := fun _ => None.

Definition draw {A} (f : Random.t -> A * Random.t) : M A :=
  fun r => Some (f r).

Definition lift {A} (o : option A) : M A :=
  fun r => match o with Some a => Some (a, r) | None => None end.

Declare Scope m_scope.
Delimit Scope m_scope with m.
Notation "x <- c1 ;; c2" := (bind c1 (fun x => c2))
  (at level 100, c1 at next level, right associativity) : m_scope.
Notation "' pat <- c1 ;; c2" := (bind c1 (fun x => match x with pat => c2 end))
  (at level 100, pat pattern, c1 at next level, right associativity) : m_scope.

(** [for x in l: x' = f(x)] collected into a list, with the effects in order. *)
Fixpoint for_each {A B} (f : A -> M B) (l : list A) : M (list B) :=
  match l with
  | [] => ret []
  | a :: l' => (b <- f a ;; bs <- for_each f l' ;; ret (b :: bs))%m
  end.

(** The same loop for a body that only may raise. *)
Fixpoint for_each_opt {A B} (f : A -> option B) (l : list A) : option (list B) :=
  match l with
  | [] => Some []
  | a :: l' =>
      match f a with
      | None => None
      | Some b =>
          match for_each_opt f l' with
          | None => None
          | Some bs => Some (b :: bs)
          end
      end
  end.

(** ** Settings *)

Definition WINDOW_WIDTH : R := 720.
Definition WINDOW_HEIGHT : R := 720.
Definition UNIT : R := 100.

Definition FPS : R := 60.
Definition HZ : R := 1 / FPS.
Definition GRAVITY : R := 9.81.
Definition AIR_FRICTION : R := 0.008.
Definition SHOT_DURATION : R := 7.0.
Definition MUTATION_CHANCE : R := 0.0.

(** [len(basketball_frames)]: the list is built over [range(165)]. *)
Definition basketball_frames_len : Z := 165.

(** [int(x)] on a float: the integer part, rounded toward zero. *)
Definition int_of_float (x : R) : Z :=
  if Rle_dec 0 x then Int_part x else (- Int_part (- x))%Z.

(** ** class Basketball *)

Module Basketball.

Record t : Type := mk {
  position : Vector2.t;
  velocity : Vector2.t;
  force : Vector2.t;
  mass : R;
  invmass : R;
  radius : R;
  elasticity : R;
  fframe : R;
  frame : Z;
  gene_i : nat;
  gene_dir : list Z;
  gene_strength : list Z
}.

Definition set_position (b : t) (p : Vector2.t) : t :=
  mk p (velocity b) (force b) (mass b) (invmass b) (radius b) (elasticity b)
     (fframe b) (frame b) (gene_i b) (gene_dir b) (gene_strength b).

Definition set_velocity (b : t) (v : Vector2.t) : t :=
  mk (position b) v (force b) (mass b) (invmass b) (radius b) (elasticity b)
     (fframe b) (frame b) (gene_i b) (gene_dir b) (gene_strength b).

Definition set_force (b : t) (f : Vector2.t) : t :=
  mk (position b) (velocity b) f (mass b) (invmass b) (radius b) (elasticity b)
     (fframe b) (frame b) (gene_i b) (gene_dir b) (gene_strength b).

Definition set_gene_i (b : t) (i : nat) : t :=
  mk (position b) (velocity b) (force b) (mass b) (invmass b) (radius b)
     (elasticity b) (fframe b) (frame b) i (gene_dir b) (gene_strength b).

Definition set_genes (b : t) (ds ss : list Z) : t :=
  mk (position b) (velocity b) (force b) (mass b) (invmass b) (radius b)
     (elasticity b) (fframe b) (frame b) (gene_i b) ds ss.

(** [__init__].  The three gene attributes do not exist before
    [create_genes]; every constructor path of the program calls
    [create_genes] before reading them, so they start here as the values
    [create_genes] resets them to. *)
Definition init (position : Vector2.t) : t :=
  mk position Vector2.zero Vector2.zero
     0.625 (1 / 0.625) (0.121 * 4) 0.8
     0.0 0%Z
     0%nat [] [].

(** The body of [for _ in range(3)] in [create_genes], run [n] times. *)
Fixpoint create_genes_loop (n : nat) (ds ss : list Z) (r : Random.t)
  : list Z * list Z * Random.t :=
  match n with
  | O => (ds, ss, r)
  | S n' =>
      let (d, r1) := Random.randint 0 359 r in
      let (s, r2) := Random.randint 65 2300 r1 in
      create_genes_loop n' (ds ++ [d]) (ss ++ [s]) r2
  end.

Definition create_genes (b : t) : M t :=
  draw (fun r =>
    let '(ds, ss, r') := create_genes_loop 3 [] [] r in
    (set_genes (set_gene_i b 0) ds ss, r')).

(** The force a gene stands for. *)
Definition gene_force (d s : Z) : Vector2.t :=
  Vector2.scale (Vector2.rotate (Vector2.mk 1 0) (IZR d)) (IZR s).

(** [apply_gene]; an index out of the lists raises [IndexError]. *)
Definition apply_gene (b : t) : option t :=
  if Nat.eqb (gene_i b) (List.length (gene_dir b)) then Some b
  else
    match nth_error (gene_dir b) (gene_i b),
          nth_error (gene_strength b) (gene_i b) with
    | Some d, Some s =>
        Some (set_gene_i (set_force b (gene_force d s)) (gene_i b + 1))
    | _, _ => None
    end.

Definition fitness (b : t) : R :=
  let fitness := Vector2.length (Vector2.sub (position b) (Vector2.mk 5.85 2.6)) in
  let fitness := if Rgtb fitness 7 then 7 else fitness in
  (7 - fitness) / 7.

(** *** [update], block by block *)

(** Integrate linear acceleration. *)
Definition integrate_acceleration (dt : R) (b : t) : t :=
  let acceleration :=
    Vector2.add (Vector2.scale (force b) (invmass b)) (Vector2.mk 0 GRAVITY) in
  set_velocity b (Vector2.add (velocity b) (Vector2.scale acceleration dt)).

(** The two wall tests, on the predicted step [future_vel]. *)
Definition crosses_x (future_vel : Vector2.t) (b : t) : bool :=
  Rltb (Vector2.x (position b) + Vector2.x future_vel - radius b) 0
  || Rgtb (Vector2.x (position b) + Vector2.x future_vel + radius b)
          (WINDOW_WIDTH / UNIT).

Definition crosses_y (future_vel : Vector2.t) (b : t) : bool :=
  Rltb (Vector2.y (position b) + Vector2.y future_vel - radius b) 0
  || Rgtb (Vector2.y (position b) + Vector2.y future_vel + radius b)
          (WINDOW_HEIGHT / UNIT).

Definition resolve_walls (future_vel : Vector2.t) (b : t) : t :=
  let b :=
    if crosses_x future_vel b
    then set_velocity b (Vector2.mk (Vector2.x (velocity b) * - elasticity b)
                                    (Vector2.y (velocity b)))
    else b in
  if crosses_y future_vel b
  then set_velocity b (Vector2.mk (Vector2.x (velocity b))
                                  (Vector2.y (velocity b) * - elasticity b))
  else b.

(** The hoop. *)
Definition net (b : t) : Vector2.t :=
  Vector2.mk (Rmax 5.3 (Vector2.x (position b))) 3.2.

Definition hoop_dist (future_vel : Vector2.t) (b : t) : R :=
  Vector2.length (Vector2.sub (net b) (Vector2.add (position b) future_vel)).

Definition resolve_hoop (future_vel : Vector2.t) (b : t) : option t :=
  let dist := hoop_dist future_vel b in
  let radii := radius b + 0.3 in
  if Rleb dist radii then
    match Vector2.normalize (Vector2.sub (net b) (position b)) with
    | None => None
    | Some normal =>
        Some (set_velocity b
                (Vector2.scale (Vector2.reflect (velocity b) normal)
                               (elasticity b)))
    end
  else Some b.

(** Friction, integration of the velocity, reset of the force. *)
Definition integrate_velocity (dt : R) (b : t) : t :=
  let b := set_velocity b (Vector2.scale (velocity b) (1 - AIR_FRICTION)) in
  let b := set_position b (Vector2.add (position b) (Vector2.scale (velocity b) dt)) in
  set_force b Vector2.zero.

Definition update (dt : R) (b : t) : option t :=
  let b := integrate_acceleration dt b in
  let future_vel := Vector2.scale (velocity b) dt in
  let b := resolve_walls future_vel b in
  match resolve_hoop future_vel b with
  | None => None
  | Some b => Some (integrate_velocity dt b)
  end.

(** *** [draw]

    What [draw] puts on the surface: the glow, a circle whose colour is
    the red-to-green blend at [glow_amount], and the frame of the
    animation it blits.  Where the frame is blitted depends on the size of
    the image, an asset, and is left out. *)
Record Drawn : Type := mkDrawn {
  glow_amount : R;
  glow_center : Vector2.t;
  glow_radius : R;
  sprite : Z
}.

Definition set_frames (b : t) (ff : R) (fr : Z) : t :=
  mk (position b) (velocity b) (force b) (mass b) (invmass b) (radius b)
     (elasticity b) ff fr (gene_i b) (gene_dir b) (gene_strength b).

(** [Color.lerp] raises [ValueError] on an amount outside [0, 1]; a list
    of length n is indexed from -n to n - 1 ([IndexError] outside). *)
Definition draw (b : t) : option (t * Drawn) :=
  (* Draw the glow *)
  if Rleb 0 (fitness b) && Rleb (fitness b) 1 then
    let glow :=
      mkDrawn (fitness b)
              (Vector2.add (Vector2.scale (position b) UNIT) (Vector2.mk 1 1))
              (radius b * 100 + 5)
              (frame b) in
    (* Draw the current frame *)
    if ((- basketball_frames_len <=? frame b)
        && (frame b <? basketball_frames_len))%Z then
      let ff := fframe b + Vector2.x (velocity b) in
      Some (set_frames b ff (int_of_float ff mod basketball_frames_len)%Z, glow)
    else None
  else None.

End Basketball.

(** ** [sorted] on floats *)

Fixpoint insert_sorted (a : R) (l : list R) : list R :=
  match l with
  | [] => [a]
  | b :: l' => if Rleb b a then b :: insert_sorted a l' else a :: b :: l'
  end.

Fixpoint sorted (l : list R) : list R :=
  match l with
  | [] => []
  | a :: l' => insert_sorted a (sorted l')
  end.

(** [l[-1]]; raises [IndexError] on the empty list. *)
Fixpoint last_item (l : list R) : option R :=
  match l with
  | [] => None
  | [a] => Some a
  | _ :: l' => last_item l'
  end.

(** ** class Generation *)

Module Generation.

Record t : Type := mk {
  population : list Basketball.t;
  last_gene : nat
}.

Definition set_population (g : t) (p : list Basketball.t) : t :=
  mk p (last_gene g).

Definition set_last_gene (g : t) (n : nat) : t :=
  mk (population g) n.

Definition init (population : nat) : M t :=
  (* Create population *)
  let balls :=
    repeat (Basketball.init (Vector2.mk (50 / UNIT) (650 / UNIT))) population in
  (* Create genes *)
  (balls <- for_each Basketball.create_genes balls ;;
   (* Apply first gene *)
   balls <- lift (for_each_opt Basketball.apply_gene balls) ;;
   ret (mk balls 0))%m.

Definition highest_fitness (g : t) : option R :=
  let fitness_vals := map Basketball.fitness (population g) in
  last_item (sorted fitness_vals).

(** [winner]: the outer [None] is an exception, the inner one is the
    Python value [None] of a loop that found no ball. *)
Definition winner (g : t) : option (option Basketball.t) :=
  match highest_fitness g with
  | None => None
  | Some highest =>
      Some (find (fun ball => Reqb (Basketball.fitness ball) highest)
                 (population g))
  end.

(** The closing loop of [update]: the physics step of every ball. *)
Definition step_physics (dt : R) (g : t) : option (t * bool) :=
  match for_each_opt (Basketball.update dt) (population g) with
  | None => None
  | Some balls => Some (set_population g balls, false)
  end.

Definition update (dt : R) (g : t) : option (t * bool) :=
  (* Apply the next gene if applicable *)
  let g := set_last_gene g (last_gene g + 1) in
  if Rgtb (INR (last_gene g)) (FPS * SHOT_DURATION) then
    let g := set_last_gene g 0 in
    (* If all shots are done this generation is finished *)
    match population g with
    | [] => None
    | ball0 :: _ =>
        if Nat.eqb (Basketball.gene_i ball0) 3 then Some (g, true)
        else
          match for_each_opt Basketball.apply_gene (population g) with
          | None => None
          | Some balls => step_physics dt (set_population g balls)
          end
    end
  else step_physics dt g.

(** [draw]: every ball in population order. *)
Fixpoint draw_balls (balls : list Basketball.t)
  : option (list Basketball.t * list Basketball.Drawn) :=
  match balls with
  | [] => Some ([], [])
  | ball :: balls' =>
      match Basketball.draw ball with
      | None => None
      | Some (ball', d) =>
          match draw_balls balls' with
          | None => None
          | Some (bs, ds) => Some (ball' :: bs, d :: ds)
          end
      end
  end.

Definition draw (g : t) : option (t * list Basketball.Drawn) :=
  match draw_balls (population g) with
  | None => None
  | Some (balls, ds) => Some (set_population g balls, ds)
  end.

(** Successive calls of [update], one per entry of [dts], with the
    returned flags in call order. *)
Fixpoint run (dts : list R) (g : t) : option (t * list bool) :=
  match dts with
  | [] => Some (g, [])
  | dt :: dts' =>
      match update dt g with
      | None => None
      | Some (g', is_done) =>
          match run dts' g' with
          | None => None
          | Some (g'', flags) => Some (g'', is_done :: flags)
          end
      end
  end.

End Generation.

(** ** class Solver *)

Module Solver.

Record t : Type := mk {
  population : nat;
  generation : Generation.t;
  generation_n : nat
}.

Definition set_generation (s : t) (g : Generation.t) : t :=
  mk (population s) g (generation_n s).

Definition init (population : nat) : M t :=
  (g <- Generation.init population ;;
   ret (mk population g 0))%m.

(** [winner.gene_dir[i]] and [winner.gene_strength[i]]. *)
Definition winner_dir (winner : option Basketball.t) (i : nat) : option Z :=
  match winner with
  | None => None
  | Some w => nth_error (Basketball.gene_dir w) i
  end.

Definition winner_strength (winner : option Basketball.t) (i : nat) : option Z :=
  match winner with
  | None => None
  | Some w => nth_error (Basketball.gene_strength w) i
  end.

(** The body of [for i in range(3)]: the pair appended for slot [i]. *)
Definition inherit_gene (winner : option Basketball.t) (i : nat) : M (Z * Z) :=
  (chance <- draw Random.random ;;
   (* Inherit winner genes by chance *)
   if Rltb chance 0.75 then
     (* Mutate genes *)
     chance_dir <- draw Random.random ;;
     d <- (if Rltb chance_dir MUTATION_CHANCE
           then draw (Random.randint 0 359)
           else lift (winner_dir winner i)) ;;
     chance_strength <- draw Random.random ;;
     s <- (if Rltb chance_strength MUTATION_CHANCE
           then draw (Random.randint 65 2300)
           else lift (winner_strength winner i)) ;;
     ret (d, s)
   else
     d <- draw (Random.randint 0 359) ;;
     s <- draw (Random.randint 65 2300) ;;
     ret (d, s))%m.

Fixpoint inherit_loop (winner : option Basketball.t) (slots : list nat)
         (gene_dir gene_strength : list Z) : M (list Z * list Z) :=
  match slots with
  | [] => ret (gene_dir, gene_strength)
  | i :: slots' =>
      ('(d, s) <- inherit_gene winner i ;;
       inherit_loop winner slots' (gene_dir ++ [d]) (gene_strength ++ [s]))%m
  end.

(** The body of [for ball in self.generation.population]. *)
Definition overwrite_genes (winner : option Basketball.t) (ball : Basketball.t)
  : M Basketball.t :=
  ('(gene_dir, gene_strength) <- inherit_loop winner (seq 0 3) [] [] ;;
   ret (Basketball.set_genes ball gene_dir gene_strength))%m.

Definition next_generation (s : t) : M t :=
  (winner <- lift (Generation.winner (generation s)) ;;
   g <- Generation.init (population s) ;;
   (* Overwrite genes *)
   balls <- for_each (overwrite_genes winner) (Generation.population g) ;;
   ret (mk (population s) (Generation.set_population g balls)
           (generation_n s + 1)))%m.

(** [update]; the printed line reads [highest_fitness] and nothing else
    of it is kept. *)
Definition update (dt : R) (s : t) : M t :=
  match Generation.update dt (generation s) with
  | None => raise
  | Some (g, is_done) =>
      let s := set_generation s g in
      if is_done then
        (_ <- lift (Generation.highest_fitness (generation s)) ;;
         next_generation s)%m
      else ret s
  end.

(** Successive calls of [update], one per entry of [dts]. *)
Fixpoint run (dts : list R) (s : t) : M t :=
  match dts with
  | [] => ret s
  | dt :: dts' => (s' <- update dt s ;; run dts' s')%m
  end.

End Solver.

(** ** The main loop

    One pass of [while True] that does not meet a [QUIT] event: the solver
    is updated with [HZ], the generation is drawn, and the labels are
    rendered from [generation_n], [population] and [highest_fitness()].
    The result is the new solver and what the pass shows. *)
Record Shown : Type := mkShown {
  balls_drawn : list Basketball.Drawn;
  label_generation : nat;
  label_population : nat;
  label_fitness : R
}.

Definition main_loop_body (s : Solver.t) : M (Solver.t * Shown) :=
  (s <- Solver.update HZ s ;;
   '(g, drawn) <- lift (Generation.draw (Solver.generation s)) ;;
   let s := Solver.set_generation s g in
   highest <- lift (Generation.highest_fitness (Solver.generation s)) ;;
   ret (s, mkShown drawn (Solver.generation_n s) (Solver.population s) highest))%m.

(** ** Vocabulary of the specification *)

(** The point the fitness measures the distance to. *)
Definition target : Vector2.t := Vector2.mk 5.85 2.6.

Definition distance (p q : Vector2.t) : R := Vector2.length (Vector2.sub p q).

(** The position [update] predicts for the end of the tick: the position
    plus [future_vel], the velocity after the acceleration step times [dt]. *)
Definition future_vel (dt : R) (b : Basketball.t) : Vector2.t :=
  Vector2.scale (Basketball.velocity (Basketball.integrate_acceleration dt b)) dt.

Definition predicted (dt : R) (b : Basketball.t) : Vector2.t :=
  Vector2.add (Basketball.position b) (future_vel dt b).

(** Two balls that differ at most in their physical state. *)
Definition same_genes (a b : Basketball.t) : Prop :=
  Basketball.gene_i a = Basketball.gene_i b /\
  Basketball.gene_dir a = Basketball.gene_dir b /\
  Basketball.gene_strength a = Basketball.gene_strength b.

(** Two balls that differ at most in their velocity. *)
Definition same_but_velocity (a b : Basketball.t) : Prop :=
  Basketball.position a = Basketball.position b /\
  Basketball.force a = Basketball.force b /\
  Basketball.mass a = Basketball.mass b /\
  Basketball.invmass a = Basketball.invmass b /\
  Basketball.radius a = Basketball.radius b /\
  Basketball.elasticity a = Basketball.elasticity b /\
  Basketball.fframe a = Basketball.fframe b /\
  Basketball.frame a = Basketball.frame b /\
  same_genes a b.


(** ** Invariants and reachable states *)

(** A ball carries three directions in [0, 359] and three strengths in
    [65, 2300]. *)
Definition valid_genes (b : Basketball.t) : Prop :=
  List.length (Basketball.gene_dir b) = 3%nat /\
  List.length (Basketball.gene_strength b) = 3%nat /\
  Forall (fun d => (0 <= d <= 359)%Z) (Basketball.gene_dir b) /\
  Forall (fun s => (65 <= s <= 2300)%Z) (Basketball.gene_strength b).

(** Every ball of the generation is at gene index [c]. *)
Definition lockstep (c : nat) (g : Generation.t) : Prop :=
  Forall (fun b => Basketball.gene_i b = c) (Generation.population g).

(** The generations the public operations of [Generation] produce. *)
Inductive gen_reachable : Generation.t -> Prop :=
| gen_reach_init (n : nat) (r r' : Random.t) (g : Generation.t) :
    Generation.init n r = Some (g, r') -> gen_reachable g
| gen_reach_update (dt : R) (g g' : Generation.t) (is_done : bool) :
    gen_reachable g -> Generation.update dt g = Some (g', is_done) ->
    gen_reachable g'.

(** The solver states the public operations produce; the generation of a
    solver is an attribute anyone may call [update] on. *)
Inductive reachable : Solver.t -> Prop :=
| reach_init (n : nat) (r r' : Random.t) (s : Solver.t) :
    Solver.init n r = Some (s, r') -> reachable s
| reach_update (dt : R) (r r' : Random.t) (s s' : Solver.t) :
    reachable s -> Solver.update dt s r = Some (s', r') -> reachable s'
| reach_next_generation (r r' : Random.t) (s s' : Solver.t) :
    reachable s -> Solver.next_generation s r = Some (s', r') -> reachable s'
| reach_generation_update (dt : R) (s : Solver.t) (g : Generation.t) (is_done : bool) :
    reachable s -> Generation.update dt (Solver.generation s) = Some (g, is_done) ->
    reachable (Solver.set_generation s g).

(** The state [Generation.__init__] leaves a ball in: at the launch
    position, at rest, with the force of its gene 0 and gene index 1. *)
Definition launched (b : Basketball.t) : Prop :=
  valid_genes b /\
  exists d s,
    nth_error (Basketball.gene_dir b) 0 = Some d /\
    nth_error (Basketball.gene_strength b) 0 = Some s /\
    b = Basketball.set_gene_i
          (Basketball.set_force
             (Basketball.set_genes
                (Basketball.init (Vector2.mk (50 / UNIT) (650 / UNIT)))
                (Basketball.gene_dir b) (Basketball.gene_strength b))
             (Basketball.gene_force d s))
          1.

(** Two balls that agree on everything but the first entry of their gene
    lists. *)
Definition same_but_slot0 (a b : Basketball.t) : Prop :=
  b = Basketball.set_genes a (Basketball.gene_dir b) (Basketball.gene_strength b) /\
  List.length (Basketball.gene_dir b) = List.length (Basketball.gene_dir a) /\
  tl (Basketball.gene_dir b) = tl (Basketball.gene_dir a) /\
  tl (Basketball.gene_strength b) = tl (Basketball.gene_strength a).

Definition gen_same_but_slot0 (g g' : Generation.t) : Prop :=
  Generation.last_gene g' = Generation.last_gene g /\
  Forall2 same_but_slot0 (Generation.population g) (Generation.population g').

(** The frame of the animation is a valid index of [basketball_frames]
    counted from the front. *)
Definition frame_ok (b : Basketball.t) : Prop :=
  (0 <= Basketball.frame b < basketball_frames_len)%Z.

(** The solvers the main loop passes through, started as [Solver(n)]. *)
Inductive main_reachable (n : nat) : Solver.t -> Prop :=
| main_start (r r' : Random.t) (s : Solver.t) :
    Solver.init n r = Some (s, r') -> main_reachable n s
| main_pass (r r' : Random.t) (s s' : Solver.t) (shown : Shown) :
    main_reachable n s -> main_loop_body s r = Some (s', shown, r') ->
    main_reachable n s'.

(** [apply_gene] called [k] times in a row. *)
Fixpoint apply_gene_times (k : nat) (b : Basketball.t) : option Basketball.t :=
  match k with
  | O => Some b
  | S k' =>
      match Basketball.apply_gene b with
      | None => None
      | Some b' => apply_gene_times k' b'
      end
  end.

(** What no call of [Generation.update] changes in a ball, and the one
    direction its gene index moves in. *)
Definition same_ball_later (b b' : Basketball.t) : Prop :=
  Basketball.gene_dir b' = Basketball.gene_dir b /\
  Basketball.gene_strength b' = Basketball.gene_strength b /\
  (Basketball.gene_i b <= Basketball.gene_i b')%nat /\
  Basketball.mass b' = Basketball.mass b /\
  Basketball.invmass b' = Basketball.invmass b /\
  Basketball.radius b' = Basketball.radius b /\
  Basketball.elasticity b' = Basketball.elasticity b /\
  Basketball.fframe b' = Basketball.fframe b /\
  Basketball.frame b' = Basketball.frame b.

(** ** Concrete inputs *)

(** The ball of the scenario, as [Generation] makes it, with gene (90, 1000)
    in the first slot. *)
Definition launch_ball : Basketball.t :=
  Basketball.set_genes (Basketball.init (Vector2.mk (50 / UNIT) (650 / UNIT)))
                       [90; 0; 180]%Z [1000; 65; 2300]%Z.

(** A random source whose every [randint(0, 359)] is 90 and whose every
    [randint(65, 2300)] is 65: all shots go straight along the y-axis. *)
Definition vertical_tape (k : nat) : Z := if Nat.even k then 90%Z else 0%Z.

Definition vertical_source : Random.t := Random.mk vertical_tape 0.

(** A ball that moves along the line x = 0.5. *)
Definition vertical (b : Basketball.t) : Prop :=
  Vector2.x (Basketball.position b) = 0.5 /\
  Vector2.x (Basketball.velocity b) = 0 /\
  Vector2.x (Basketball.force b) = 0 /\
  Basketball.radius b = 0.121 * 4 /\
  Forall (fun d => d = 90%Z) (Basketball.gene_dir b).

(** The ball [Generation.__init__] makes from [vertical_source]: genes
    (90, 65) three times, gene 0 applied, gene index 0 + 1. *)
Definition vertical_ball : Basketball.t :=
  Basketball.set_gene_i
    (Basketball.set_force
       (Basketball.set_genes
          (Basketball.set_gene_i
             (Basketball.init (Vector2.mk (50 / UNIT) (650 / UNIT))) 0)
          [90; 90; 90]%Z [65; 65; 65]%Z)
       (Basketball.gene_force 90 65))
    (0 + 1).

(** The solver that [Solver(1)] constructs from [vertical_source]. *)
Definition vertical_solver : Solver.t :=
  Solver.mk 1 (Generation.mk [vertical_ball] 0) 0.

(** ** Basic facts *)

Lemma Rltb_true (a b : R) : Rltb a b = true <-> a < b.
Proof. unfold Rltb; destruct (Rlt_dec a b); split; intros; try easy. Qed.

Lemma Rltb_false (a b : R) : Rltb a b = false <-> b <= a.
Proof.
  unfold Rltb; destruct (Rlt_dec a b); split; intros; try easy; lra.
Qed.

Lemma Rgtb_true (a b : R) : Rgtb a b = true <-> b < a.
Proof. unfold Rgtb; destruct (Rgt_dec a b); split; intros; try easy. Qed.

Lemma Rgtb_false (a b : R) : Rgtb a b = false <-> a <= b.
Proof.
  unfold Rgtb; destruct (Rgt_dec a b); split; intros; try easy; lra.
Qed.

Lemma Rleb_true (a b : R) : Rleb a b = true <-> a <= b.
Proof. unfold Rleb; destruct (Rle_dec a b); split; intros; try easy. Qed.

Lemma Rleb_false (a b : R) : Rleb a b = false <-> b < a.
Proof.
  unfold Rleb; destruct (Rle_dec a b); split; intros; try easy; lra.
Qed.

Lemma Reqb_true (a b : R) : Reqb a b = true <-> a = b.
Proof. unfold Reqb; destruct (Req_dec_T a b); split; intros; try easy. Qed.

Lemma length_nonneg (v : Vector2.t) : 0 <= Vector2.length v.
Proof. apply sqrt_pos. Qed.

Lemma length_zero_iff (v : Vector2.t) :
  Vector2.length v = 0 <-> v = Vector2.zero.
Proof.
  destruct v as [a b]; unfold Vector2.length, Vector2.zero; simpl; split.
  - intros H. apply sqrt_eq_0 in H; [| nra].
    assert (a = 0) by nra. assert (b = 0) by nra. subst; reflexivity.
  - intros H. injection H as -> ->.
    replace (0 * 0 + 0 * 0) with 0 by ring. apply sqrt_0.
Qed.

Lemma length_vertical (b : R) : Vector2.length (Vector2.mk 0 b) = Rabs b.
Proof.
  unfold Vector2.length; simpl.
  replace (0 * 0 + b * b) with (Rsqr b) by (unfold Rsqr; ring).
  apply sqrt_Rsqr_abs.
Qed.

Lemma length_ge_abs_x (v : Vector2.t) : Rabs (Vector2.x v) <= Vector2.length v.
Proof.
  destruct v as [a b]; unfold Vector2.length; simpl.
  rewrite <- sqrt_Rsqr_abs. apply sqrt_le_1; unfold Rsqr; nra.
Qed.

Lemma unit_rotation (degrees : R) :
  Vector2.rotate (Vector2.mk 1 0) degrees =
    Vector2.mk (cos (degrees * PI / 180)) (sin (degrees * PI / 180)) /\
  Vector2.length (Vector2.rotate (Vector2.mk 1 0) degrees) = 1.
Proof.
  assert (E : Vector2.rotate (Vector2.mk 1 0) degrees =
              Vector2.mk (cos (degrees * PI / 180)) (sin (degrees * PI / 180))).
  { unfold Vector2.rotate; simpl. f_equal; ring. }
  split; [exact E |].
  rewrite E. unfold Vector2.length; simpl.
  pose proof (sin2_cos2 (degrees * PI / 180)) as H. unfold Rsqr in H.
  replace (cos (degrees * PI / 180) * cos (degrees * PI / 180) +
           sin (degrees * PI / 180) * sin (degrees * PI / 180)) with 1 by lra.
  apply sqrt_1.
Qed.

(** A gene of direction 90 is the force (0, strength). *)
Lemma gene_force_90 (s : Z) :
  Basketball.gene_force 90 s = Vector2.mk 0 (IZR s).
Proof.
  unfold Basketball.gene_force.
  destruct (unit_rotation 90) as [-> _].
  replace (90 * PI / 180) with (PI / 2) by field.
  rewrite cos_PI2, sin_PI2. unfold Vector2.scale; simpl. f_equal; ring.
Qed.

(** ** Fitness *)

Lemma fitness_unfold (b : Basketball.t) :
  Basketball.fitness b =
    (7 - Rmin (distance (Basketball.position b) target) 7) / 7.
Proof.
  unfold Basketball.fitness, distance, target, Rgtb, Rmin.
  destruct (Rgt_dec _ 7), (Rle_dec _ 7); try reflexivity; lra.
Qed.



(** ** [apply_gene] *)

(** The two cases of [apply_gene] on a ball with three genes. *)
Lemma apply_gene_shape (b : Basketball.t) :
  List.length (Basketball.gene_dir b) = 3%nat ->
  List.length (Basketball.gene_strength b) = 3%nat ->
  (Basketball.gene_i b = 3%nat -> Basketball.apply_gene b = Some b) /\
  ((Basketball.gene_i b < 3)%nat ->
   exists d s,
     nth_error (Basketball.gene_dir b) (Basketball.gene_i b) = Some d /\
     nth_error (Basketball.gene_strength b) (Basketball.gene_i b) = Some s /\
     Basketball.apply_gene b =
       Some (Basketball.set_gene_i (Basketball.set_force b (Basketball.gene_force d s))
                                   (Basketball.gene_i b + 1))).
Proof.
  intros Hd Hs. unfold Basketball.apply_gene. split.
  - intros Hi. rewrite Hi, Hd. reflexivity.
  - intros Hi.
    destruct (nth_error (Basketball.gene_dir b) (Basketball.gene_i b)) as [d|] eqn:Ed.
    2: { apply nth_error_None in Ed. lia. }
    destruct (nth_error (Basketball.gene_strength b) (Basketball.gene_i b)) as [s|] eqn:Es.
    2: { apply nth_error_None in Es. lia. }
    exists d, s. repeat split.
    rewrite Hd. destruct (Nat.eqb_spec (Basketball.gene_i b) 3); [lia | reflexivity].
Qed.

(** C8. On a ball with three genes [apply_gene] returns the ball unchanged
    when [gene_i] is 3; when [gene_i] is below 3 it replaces the force by
    the unit vector at the gene's direction (degrees from the positive
    x-axis) scaled by the gene's strength, adds 1 to [gene_i] and keeps
    every other field. *)
Theorem apply_gene_spec :
  forall b : Basketball.t,
    List.length (Basketball.gene_dir b) = 3%nat ->
    List.length (Basketball.gene_strength b) = 3%nat ->
    (Basketball.gene_i b = 3%nat -> Basketball.apply_gene b = Some b) /\
    ((Basketball.gene_i b < 3)%nat ->
     exists d s,
       nth_error (Basketball.gene_dir b) (Basketball.gene_i b) = Some d /\
       nth_error (Basketball.gene_strength b) (Basketball.gene_i b) = Some s /\
       let unit := Vector2.mk (cos (IZR d * PI / 180)) (sin (IZR d * PI / 180)) in
       Vector2.length unit = 1 /\
       Basketball.apply_gene b =
         Some (Basketball.mk
                 (Basketball.position b) (Basketball.velocity b)
                 (Vector2.scale unit (IZR s))
                 (Basketball.mass b) (Basketball.invmass b)
                 (Basketball.radius b) (Basketball.elasticity b)
                 (Basketball.fframe b) (Basketball.frame b)
                 (Basketball.gene_i b + 1)
                 (Basketball.gene_dir b) (Basketball.gene_strength b))).
Proof.
  intros b Hd Hs. destruct (apply_gene_shape b Hd Hs) as [H3 Hlt].
  split; [exact H3 |].
  intros Hi. destruct (Hlt Hi) as (d & s & Ed & Es & A).
  exists d, s. repeat split; try assumption.
  - destruct (unit_rotation (IZR d)) as [E L]. rewrite E in L. exact L.
  - rewrite A. unfold Basketball.gene_force.
    destruct (unit_rotation (IZR d)) as [-> _]. reflexivity.
Qed.

Lemma apply_gene_spec_witness :
  let b := Basketball.set_genes
             (Basketball.init (Vector2.mk 0.5 6.5)) [90; 0; 180]%Z [1000; 65; 2300]%Z in
  Basketball.apply_gene (Basketball.set_gene_i b 3) = Some (Basketball.set_gene_i b 3) /\
  exists b', Basketball.apply_gene b = Some b' /\ Basketball.gene_i b' = 1%nat.
Proof.
  intros b. split.
  - apply (apply_gene_spec (Basketball.set_gene_i b 3)); reflexivity.
  - destruct (apply_gene_spec b eq_refl eq_refl) as [_ H].
    destruct H as (d & s & _ & _ & _ & E); [simpl; lia |].
    eexists. split; [exact E | reflexivity].
Defined.

(** ** The physics step *)

Lemma integrate_acceleration_frame (dt : R) (b : Basketball.t) :
  same_but_velocity (Basketball.integrate_acceleration dt b) b.
Proof. repeat split. Qed.

Lemma resolve_walls_frame (fv : Vector2.t) (b : Basketball.t) :
  same_but_velocity (Basketball.resolve_walls fv b) b.
Proof.
  unfold Basketball.resolve_walls.
  destruct (Basketball.crosses_x fv b);
    match goal with |- context [Basketball.crosses_y ?f ?c] =>
      destruct (Basketball.crosses_y f c) end;
    repeat split.
Qed.

Lemma resolve_walls_velocity (fv : Vector2.t) (b : Basketball.t) :
  Basketball.velocity (Basketball.resolve_walls fv b) =
    Vector2.mk
      (if Basketball.crosses_x fv b
       then Vector2.x (Basketball.velocity b) * - Basketball.elasticity b
       else Vector2.x (Basketball.velocity b))
      (if Basketball.crosses_y fv b
       then Vector2.y (Basketball.velocity b) * - Basketball.elasticity b
       else Vector2.y (Basketball.velocity b)).
Proof.
  unfold Basketball.resolve_walls, Basketball.crosses_y, Basketball.crosses_x.
  destruct (Rltb (Vector2.x (Basketball.position b) + Vector2.x fv - Basketball.radius b) 0
            || Rgtb (Vector2.x (Basketball.position b) + Vector2.x fv + Basketball.radius b)
                    (WINDOW_WIDTH / UNIT)); simpl;
  destruct (Rltb (Vector2.y (Basketball.position b) + Vector2.y fv - Basketball.radius b) 0
            || Rgtb (Vector2.y (Basketball.position b) + Vector2.y fv + Basketball.radius b)
                    (WINDOW_HEIGHT / UNIT)); simpl;
  try reflexivity; destruct (Basketball.velocity b); reflexivity.
Qed.

Lemma resolve_hoop_frame (fv : Vector2.t) (b b' : Basketball.t) :
  Basketball.resolve_hoop fv b = Some b' -> same_but_velocity b' b.
Proof.
  unfold Basketball.resolve_hoop.
  destruct (Rleb _ _).
  - destruct (Vector2.normalize _); [| discriminate].
    intros [= <-]. repeat split.
  - intros [= <-]. repeat split.
Qed.

Lemma crosses_x_iff (fv : Vector2.t) (b : Basketball.t) :
  Basketball.crosses_x fv b = true <->
  Vector2.x (Basketball.position b) + Vector2.x fv - Basketball.radius b < 0 \/
  7.2 < Vector2.x (Basketball.position b) + Vector2.x fv + Basketball.radius b.
Proof.
  unfold Basketball.crosses_x, WINDOW_WIDTH, UNIT.
  rewrite orb_true_iff, Rltb_true, Rgtb_true. split; intros [H | H]; lra.
Qed.

Lemma crosses_y_iff (fv : Vector2.t) (b : Basketball.t) :
  Basketball.crosses_y fv b = true <->
  Vector2.y (Basketball.position b) + Vector2.y fv - Basketball.radius b < 0 \/
  7.2 < Vector2.y (Basketball.position b) + Vector2.y fv + Basketball.radius b.
Proof.
  unfold Basketball.crosses_y, WINDOW_HEIGHT, UNIT.
  rewrite orb_true_iff, Rltb_true, Rgtb_true. split; intros [H | H]; lra.
Qed.

(** The hoop test of [update] in the vocabulary of the specification. *)
Lemma hoop_dist_predicted (dt : R) (b : Basketball.t) :
  let b1 := Basketball.integrate_acceleration dt b in
  let fv := Vector2.scale (Basketball.velocity b1) dt in
  Basketball.hoop_dist fv (Basketball.resolve_walls fv b1) =
    distance (Basketball.net b) (predicted dt b).
Proof.
  intros b1 fv. unfold Basketball.hoop_dist, distance, predicted, future_vel.
  fold b1. fold fv.
  destruct (resolve_walls_frame fv b1) as (P & _).
  unfold Basketball.net. rewrite P. reflexivity.
Qed.

(** [update] when the predicted position is clear of the hoop. *)
Lemma update_no_hoop (dt : R) (b : Basketball.t) :
  Basketball.radius b + 0.3 < distance (Basketball.net b) (predicted dt b) ->
  let b1 := Basketball.integrate_acceleration dt b in
  let fv := Vector2.scale (Basketball.velocity b1) dt in
  Basketball.update dt b =
    Some (Basketball.integrate_velocity dt (Basketball.resolve_walls fv b1)).
Proof.
  intros H b1 fv. unfold Basketball.update. fold b1. fold fv.
  unfold Basketball.resolve_hoop.
  pose proof (hoop_dist_predicted dt b) as E. cbv zeta in E. fold b1 fv in E.
  rewrite E.
  destruct (resolve_walls_frame fv b1) as (_ & _ & _ & _ & Rd & _).
  rewrite Rd. change (Basketball.radius b1) with (Basketball.radius b).
  apply Rleb_false in H. rewrite H. reflexivity.
Qed.

(** Every completed [update] keeps the genes and the constants of the ball,
    moves the position by the final velocity times [dt] and clears the
    force. *)
Lemma update_frame (dt : R) (b b' : Basketball.t) :
  Basketball.update dt b = Some b' ->
  same_genes b' b /\
  Basketball.mass b' = Basketball.mass b /\
  Basketball.invmass b' = Basketball.invmass b /\
  Basketball.radius b' = Basketball.radius b /\
  Basketball.elasticity b' = Basketball.elasticity b /\
  Basketball.force b' = Vector2.zero /\
  Basketball.position b' =
    Vector2.add (Basketball.position b)
                (Vector2.scale (Basketball.velocity b') dt).
Proof.
  unfold Basketball.update.
  set (b1 := Basketball.integrate_acceleration dt b).
  set (fv := Vector2.scale (Basketball.velocity b1) dt).
  destruct (Basketball.resolve_hoop fv (Basketball.resolve_walls fv b1)) as [b2|] eqn:E;
    [| discriminate].
  intros [= <-].
  apply resolve_hoop_frame in E.
  destruct E as (P & F & Ms & Im & Rd & El & _ & _ & G1 & G2 & G3).
  destruct (resolve_walls_frame fv b1) as (P' & F' & Ms' & Im' & Rd' & El' & _ & _ & G1' & G2' & G3').
  unfold same_genes. simpl.
  rewrite G1, G2, G3, G1', G2', G3', Ms, Ms', Im, Im', Rd, Rd', El, El', P, P'.
  repeat split.
Qed.

(** C7. The wall branches of [update] change nothing but the velocity:
    [velocity.x] is multiplied by [-elasticity] exactly when the predicted
    position, offset by the radius, leaves [0, 7.2] in x, and likewise
    [velocity.y] in y; the position of a completed [update] is the old
    position plus the final velocity times [dt].  Hence a ball with no
    force and velocity (0, v) that is predicted to cross the floor, clear
    of the hoop, leaves the tick with vertical velocity
    -(v + GRAVITY * dt) * elasticity * (1 - AIR_FRICTION). *)
Theorem wall_bounce_velocity_only :
  (forall (fv : Vector2.t) (b : Basketball.t),
     let b' := Basketball.resolve_walls fv b in
     let px := Vector2.x (Basketball.position b) + Vector2.x fv in
     let py := Vector2.y (Basketball.position b) + Vector2.y fv in
     let r := Basketball.radius b in
     same_but_velocity b' b /\
     Vector2.x (Basketball.velocity b') =
       (if Basketball.crosses_x fv b
        then Vector2.x (Basketball.velocity b) * - Basketball.elasticity b
        else Vector2.x (Basketball.velocity b)) /\
     Vector2.y (Basketball.velocity b') =
       (if Basketball.crosses_y fv b
        then Vector2.y (Basketball.velocity b) * - Basketball.elasticity b
        else Vector2.y (Basketball.velocity b)) /\
     (Basketball.crosses_x fv b = true <-> px - r < 0 \/ 7.2 < px + r) /\
     (Basketball.crosses_y fv b = true <-> py - r < 0 \/ 7.2 < py + r)) /\
  (forall (dt : R) (b b' : Basketball.t),
     Basketball.update dt b = Some b' ->
     Basketball.position b' =
       Vector2.add (Basketball.position b)
                   (Vector2.scale (Basketball.velocity b') dt)) /\
  (forall (dt v : R) (b : Basketball.t),
     Basketball.force b = Vector2.zero ->
     Basketball.velocity b = Vector2.mk 0 v ->
     7.2 < Vector2.y (predicted dt b) + Basketball.radius b ->
     Basketball.radius b + 0.3 < distance (Basketball.net b) (predicted dt b) ->
     exists b',
       Basketball.update dt b = Some b' /\
       Vector2.x (Basketball.velocity b') = 0 /\
       Vector2.y (Basketball.velocity b') =
         - (v + GRAVITY * dt) * Basketball.elasticity b * (1 - AIR_FRICTION)).
Proof.
  split; [| split].
  - intros fv b b' px py r. subst b' px py r.
    rewrite resolve_walls_velocity. simpl.
    repeat split; try apply resolve_walls_frame;
      try apply crosses_x_iff; try apply crosses_y_iff.
  - intros dt b b' H. apply update_frame in H. tauto.
  - intros dt v b Hf Hv Hfloor Hhoop.
    rewrite (update_no_hoop dt b Hhoop).
    eexists. split; [reflexivity |].
    assert (V1 : Basketball.velocity (Basketball.integrate_acceleration dt b) =
                 Vector2.mk 0 (v + GRAVITY * dt)).
    { unfold Basketball.integrate_acceleration. simpl. rewrite Hf, Hv.
      unfold Vector2.add, Vector2.scale, Vector2.zero. simpl. f_equal; ring. }
    assert (Cy : Basketball.crosses_y
                   (Vector2.scale (Basketball.velocity
                                     (Basketball.integrate_acceleration dt b)) dt)
                   (Basketball.integrate_acceleration dt b) = true).
    { apply crosses_y_iff. right. exact Hfloor. }
    change (Basketball.velocity (Basketball.integrate_velocity dt ?c))
      with (Vector2.scale (Basketball.velocity c) (1 - AIR_FRICTION)).
    rewrite resolve_walls_velocity, Cy, V1.
    unfold Vector2.scale; cbn [Vector2.x Vector2.y].
    change (Basketball.elasticity (Basketball.integrate_acceleration dt b))
      with (Basketball.elasticity b).
    split; [| ring].
    destruct (Basketball.crosses_x _ _); ring.
Qed.

Lemma wall_bounce_velocity_only_witness :
  let b := Basketball.set_velocity (Basketball.init (Vector2.mk 0.5 6.5))
                                   (Vector2.mk 0 30) in
  exists b',
    Basketball.update HZ b = Some b' /\
    Vector2.y (Basketball.velocity b') = - (30 + GRAVITY * HZ) * 0.8 * (1 - AIR_FRICTION) /\
    Basketball.position b' =
      Vector2.add (Basketball.position b) (Vector2.scale (Basketball.velocity b') HZ).
Proof.
  intros b.
  destruct wall_bounce_velocity_only as (_ & Hpos & Hfloor).
  destruct (Hfloor HZ 30 b eq_refl eq_refl) as (b' & U & _ & Vy).
  - unfold predicted, future_vel; simpl. unfold HZ, FPS, GRAVITY. lra.
  - eapply Rlt_le_trans; [| apply length_ge_abs_x].
    unfold predicted, future_vel, Basketball.net; simpl.
    unfold HZ, FPS, GRAVITY.
    rewrite Rmax_left by lra.
    rewrite Rabs_pos_eq; lra.
  - exists b'. split; [exact U |]. split; [exact Vy |].
    apply (Hpos HZ b b' U).
Defined.

(** ** The hoop *)

(** C10. [update] does not complete on every state: when the ball sits at
    height 3.2 with x at least 5.3, the hoop centre is the position of the
    ball; if the predicted position is within [radius + 0.3] of it, the
    normal is the normalised zero vector and [update] raises. *)
Theorem update_raises_at_hoop_centre :
  forall (dt : R) (b : Basketball.t),
    5.3 <= Vector2.x (Basketball.position b) ->
    Vector2.y (Basketball.position b) = 3.2 ->
    distance (Basketball.net b) (predicted dt b) <= Basketball.radius b + 0.3 ->
    Basketball.net b = Basketball.position b /\
    Vector2.sub (Basketball.net b) (Basketball.position b) = Vector2.zero /\
    Vector2.normalize Vector2.zero = None /\
    Basketball.update dt b = None.
Proof.
  intros dt b Hx Hy Hd.
  assert (N : Basketball.net b = Basketball.position b).
  { unfold Basketball.net. rewrite Rmax_right by lra. rewrite <- Hy.
    destruct (Basketball.position b); reflexivity. }
  assert (Z : Vector2.sub (Basketball.net b) (Basketball.position b) = Vector2.zero).
  { rewrite N. unfold Vector2.sub, Vector2.zero. f_equal; ring. }
  assert (NZ : Vector2.normalize Vector2.zero = None).
  { unfold Vector2.normalize.
    destruct (Req_dec_T (Vector2.length Vector2.zero) 0) as [_ | Hn]; [reflexivity |].
    exfalso. apply Hn. apply length_zero_iff. reflexivity. }
  repeat split; try assumption.
  unfold Basketball.update.
  set (b1 := Basketball.integrate_acceleration dt b).
  set (fv := Vector2.scale (Basketball.velocity b1) dt).
  unfold Basketball.resolve_hoop.
  pose proof (hoop_dist_predicted dt b) as E. cbv zeta in E. fold b1 fv in E.
  rewrite E.
  destruct (resolve_walls_frame fv b1) as (P & _ & _ & _ & Rd & _).
  rewrite Rd. change (Basketball.radius b1) with (Basketball.radius b).
  apply Rleb_true in Hd. rewrite Hd.
  unfold Basketball.net. rewrite P.
  change (Basketball.position b1) with (Basketball.position b).
  fold (Basketball.net b). rewrite Z, NZ. reflexivity.
Qed.

Lemma update_raises_at_hoop_centre_witness :
  Basketball.update HZ (Basketball.init (Vector2.mk 6 3.2)) = None.
Proof.
  apply (update_raises_at_hoop_centre HZ (Basketball.init (Vector2.mk 6 3.2))).
  - simpl. lra.
  - reflexivity.
  - unfold distance, predicted, future_vel, Basketball.net, Vector2.sub; simpl.
    rewrite Rmax_right by lra.
    replace (6 - (6 + (0 + (0 * (1 / 0.625) + 0) * HZ) * HZ)) with 0
      by (unfold HZ, FPS; lra).
    rewrite length_vertical.
    unfold HZ, FPS, GRAVITY.
    rewrite Rabs_left; lra.
Defined.

(** ** The launch scenario: gene (90, 1000) at the launch position *)

(** The first tick of a ball launched with gene (90, 1000): the force
    points down the y-axis, toward the floor at y = 7.2, the predicted
    position crosses the floor and the vertical velocity is reversed. *)
Lemma launch_trace (b : Basketball.t) :
  Basketball.position b = Vector2.mk 0.5 6.5 ->
  Basketball.velocity b = Vector2.zero ->
  Basketball.mass b = 0.625 ->
  Basketball.invmass b = 1 / Basketball.mass b ->
  Basketball.radius b = 0.121 * 4 ->
  Basketball.elasticity b = 0.8 ->
  nth_error (Basketball.gene_dir b) (Basketball.gene_i b) = Some 90%Z ->
  nth_error (Basketball.gene_strength b) (Basketball.gene_i b) = Some 1000%Z ->
  exists b1 b2,
    Basketball.apply_gene b = Some b1 /\
    Basketball.force b1 = Vector2.mk 0 1000 /\
    7.2 < Vector2.y (predicted (1 / 60) b1) + Basketball.radius b1 /\
    Basketball.update (1 / 60) b1 = Some b2 /\
    Vector2.y (Basketball.velocity b2) = - (1609.81 / 60) * 0.8 * 0.992 /\
    Vector2.y (Basketball.position b2) = 6.5 - (1609.81 / 60) * 0.8 * 0.992 / 60.
Proof.
  intros Hp Hv Hm Him Hr He Hd Hs.
  assert (Hi : (Basketball.gene_i b < List.length (Basketball.gene_dir b))%nat).
  { apply nth_error_Some. rewrite Hd. discriminate. }
  set (b1 := Basketball.set_gene_i
               (Basketball.set_force b (Vector2.mk 0 1000)) (Basketball.gene_i b + 1)).
  assert (A : Basketball.apply_gene b = Some b1).
  { unfold Basketball.apply_gene. rewrite Hd, Hs, gene_force_90.
    destruct (Nat.eqb_spec (Basketball.gene_i b) (List.length (Basketball.gene_dir b)));
      [lia | reflexivity]. }
  assert (V1 : Basketball.velocity (Basketball.integrate_acceleration (1 / 60) b1) =
               Vector2.mk 0 (1609.81 / 60)).
  { unfold Basketball.integrate_acceleration, b1; simpl. rewrite Hv, Him, Hm.
    unfold Vector2.add, Vector2.scale, Vector2.zero, GRAVITY; simpl. f_equal; lra. }
  assert (Hhoop : Basketball.radius b1 + 0.3 <
                  distance (Basketball.net b1) (predicted (1 / 60) b1)).
  { eapply Rlt_le_trans; [| apply length_ge_abs_x].
    unfold predicted, future_vel. rewrite V1.
    unfold Basketball.net, b1; simpl. rewrite Hr, Hp; simpl.
    rewrite Rmax_left by lra. rewrite Rabs_pos_eq; lra. }
  assert (Cy : Basketball.crosses_y
                 (Vector2.scale (Basketball.velocity
                                   (Basketball.integrate_acceleration (1 / 60) b1)) (1 / 60))
                 (Basketball.integrate_acceleration (1 / 60) b1) = true).
  { apply crosses_y_iff. right. rewrite V1. unfold b1; simpl. rewrite Hp, Hr; simpl. lra. }
  exists b1. eexists. split; [exact A |]. split; [reflexivity |].
  split; [apply crosses_y_iff in Cy; destruct Cy as [Cy | Cy]; [exfalso | exact Cy];
          rewrite V1 in Cy; unfold b1 in Cy; simpl in Cy; rewrite Hp, Hr in Cy;
          simpl in Cy; lra |].
  split; [apply (update_no_hoop (1 / 60) b1 Hhoop) |].
  change (Basketball.velocity (Basketball.integrate_velocity ?dt ?c))
    with (Vector2.scale (Basketball.velocity c) (1 - AIR_FRICTION)).
  change (Basketball.position (Basketball.integrate_velocity ?dt ?c))
    with (Vector2.add (Basketball.position c)
            (Vector2.scale (Vector2.scale (Basketball.velocity c) (1 - AIR_FRICTION)) dt)).
  destruct (resolve_walls_frame
              (Vector2.scale (Basketball.velocity
                                (Basketball.integrate_acceleration (1 / 60) b1)) (1 / 60))
              (Basketball.integrate_acceleration (1 / 60) b1)) as (P & _).
  rewrite P, resolve_walls_velocity, Cy, V1.
  change (Basketball.position (Basketball.integrate_acceleration (1 / 60) b1))
    with (Basketball.position b).
  change (Basketball.elasticity (Basketball.integrate_acceleration (1 / 60) b1))
    with (Basketball.elasticity b).
  rewrite Hp, He.
  unfold Vector2.add, Vector2.scale, AIR_FRICTION; cbn [Vector2.x Vector2.y].
  split; lra.
Qed.

Lemma launch_ball_position : Basketball.position launch_ball = Vector2.mk 0.5 6.5.
Proof. unfold launch_ball, UNIT; simpl. f_equal; lra. Qed.

(** C2, as the specification states it, fails: after the gene (90, 1000)
    is applied at (0.5, 6.5), the first [update(1/60)] does not leave the
    ball with [velocity.y > 0] and [position.y > 6.5]. *)
Lemma launch_scenario_refuted :
  ~ (exists b1 b2,
       Basketball.apply_gene launch_ball = Some b1 /\
       Basketball.update (1 / 60) b1 = Some b2 /\
       Vector2.y (Basketball.velocity b2) > 0 /\
       Vector2.y (Basketball.position b2) > 6.5).
Proof.
  intros (b1 & b2 & A & U & Hv & Hp).
  destruct (launch_trace launch_ball launch_ball_position)
    as (c1 & c2 & A' & _ & _ & U' & Hv' & Hp'); try reflexivity.
  rewrite A in A'. injection A' as <-.
  rewrite U in U'. injection U' as <-.
  lra.
Qed.

(** C2, amended.  For a ball at (0.5, 6.5) at rest, of mass 0.625, whose
    current gene is (90, 1000): [apply_gene] sets the force to (0, 1000);
    the first [update(1/60)] then predicts a position below the floor,
    reverses the vertical velocity and leaves [velocity.y < 0] and
    [position.y < 6.5]. *)
Theorem launch_scenario_floor_bounce :
  forall b : Basketball.t,
    Basketball.position b = Vector2.mk 0.5 6.5 ->
    Basketball.velocity b = Vector2.zero ->
    Basketball.mass b = 0.625 ->
    Basketball.invmass b = 1 / Basketball.mass b ->
    Basketball.radius b = 0.121 * 4 ->
    Basketball.elasticity b = 0.8 ->
    nth_error (Basketball.gene_dir b) (Basketball.gene_i b) = Some 90%Z ->
    nth_error (Basketball.gene_strength b) (Basketball.gene_i b) = Some 1000%Z ->
    exists b1 b2,
      Basketball.apply_gene b = Some b1 /\
      Basketball.force b1 = Vector2.mk 0 1000 /\
      7.2 < Vector2.y (predicted (1 / 60) b1) + Basketball.radius b1 /\
      Basketball.update (1 / 60) b1 = Some b2 /\
      Vector2.y (Basketball.velocity b2) = - (1609.81 / 60) * 0.8 * 0.992 /\
      Vector2.y (Basketball.velocity b2) < 0 /\
      Vector2.y (Basketball.position b2) < 6.5.
Proof.
  intros b Hp Hv Hm Him Hr He Hd Hs.
  destruct (launch_trace b Hp Hv Hm Him Hr He Hd Hs)
    as (b1 & b2 & A & F & Fl & U & Vy & Py).
  exists b1, b2. repeat split; try assumption; lra.
Qed.

Lemma launch_scenario_floor_bounce_witness :
  exists b1 b2,
    Basketball.apply_gene launch_ball = Some b1 /\
    Basketball.update (1 / 60) b1 = Some b2 /\
    Vector2.y (Basketball.velocity b2) < 0 /\
    Vector2.y (Basketball.position b2) < 6.5.
Proof.
  destruct (launch_scenario_floor_bounce launch_ball launch_ball_position)
    as (b1 & b2 & A & _ & _ & U & _ & Vy & Py); try reflexivity.
  exists b1, b2. repeat split; assumption.
Defined.

(** ** Loops *)

Lemma for_each_opt_Forall2 {A B} (f : A -> option B) (l : list A) (l' : list B) :
  for_each_opt f l = Some l' -> Forall2 (fun a b => f a = Some b) l l'.
Proof.
  revert l'. induction l as [| a l IH]; simpl; intros l' H.
  - injection H as <-. constructor.
  - destruct (f a) as [b|] eqn:E; [| discriminate].
    destruct (for_each_opt f l) as [bs|]; [| discriminate].
    injection H as <-. constructor; auto.
Qed.

Lemma for_each_opt_total {A B} (f : A -> option B) (P : A -> Prop) (l : list A) :
  (forall a, P a -> exists b, f a = Some b) ->
  Forall P l -> exists l', for_each_opt f l = Some l'.
Proof.
  intros Hf. induction 1 as [| a l Ha _ [l' IH]]; simpl.
  - eexists; reflexivity.
  - destruct (Hf a Ha) as [b ->]. rewrite IH. eexists; reflexivity.
Qed.

Lemma for_each_Forall2 {A B} (f : A -> M B) (l : list A) :
  forall (r r' : Random.t) (l' : list B),
    for_each f l r = Some (l', r') ->
    Forall2 (fun a b => exists r1 r2, f a r1 = Some (b, r2)) l l'.
Proof.
  induction l as [| a l IH]; simpl; intros r r' l' H.
  - injection H as <- _. constructor.
  - unfold bind in H. destruct (f a r) as [[b r1]|] eqn:E; [| discriminate].
    destruct (for_each f l r1) as [[bs r2]|] eqn:E'; [| discriminate].
    injection H as <- _. constructor; eauto.
Qed.

Lemma for_each_total {A B} (f : A -> M B) (l : list A) :
  (forall a r, In a l -> exists b r', f a r = Some (b, r')) ->
  forall r, exists l' r', for_each f l r = Some (l', r').
Proof.
  induction l as [| a l IH]; simpl; intros Hf r.
  - eexists _, _; reflexivity.
  - unfold bind. destruct (Hf a r) as (b & r1 & ->); [auto |].
    destruct (IH (fun a r H => Hf a r (or_intror H)) r1) as (bs & r2 & ->).
    eexists _, _; reflexivity.
Qed.

Lemma Forall2_Forall_r {A B} (R : A -> B -> Prop) (P : A -> Prop) (Q : B -> Prop)
      (l : list A) (l' : list B) :
  (forall a b, P a -> R a b -> Q b) ->
  Forall2 R l l' -> Forall P l -> Forall Q l'.
Proof.
  intros H F. induction F; intros HP; constructor; inversion HP; subst; eauto.
Qed.

Lemma Forall2_nonempty {A B} (R : A -> B -> Prop) (l : list A) (l' : list B) :
  Forall2 R l l' -> l <> [] -> l' <> [].
Proof. intros F. destruct F; congruence. Qed.

(** ** The random source *)

Lemma randint_range (a b : Z) (r : Random.t) :
  (a <= b)%Z -> (a <= fst (Random.randint a b r) <= b)%Z.
Proof.
  intros H. unfold Random.randint; simpl.
  pose proof (Z.mod_pos_bound (Random.raw r) (b - a + 1)). lia.
Qed.

Lemma random_range (r : Random.t) : 0 <= fst (Random.random r) < 1.
Proof.
  unfold Random.random; cbn [fst].
  pose proof (Z.mod_pos_bound (Random.raw r) (2 ^ 53) eq_refl) as [H0 H1].
  apply IZR_le in H0. apply IZR_lt in H1.
  assert (Hk : 0 < IZR (2 ^ 53)) by (apply IZR_lt; reflexivity).
  revert H0 H1 Hk.
  generalize (IZR (Random.raw r mod 2 ^ 53)) (IZR (2 ^ 53)). intros u k H0 H1 Hk.
  split.
  - apply Rmult_le_pos; [exact H0 | left; apply Rinv_0_lt_compat; assumption].
  - apply Rmult_lt_reg_r with k; [assumption |].
    unfold Rdiv. rewrite Rmult_assoc, Rinv_l, Rmult_1_r by lra. lra.
Qed.

(** ** Genes stay valid and the balls stay in lockstep *)

Lemma create_genes_loop_spec (n : nat) :
  forall ds ss r ds' ss' r',
    Basketball.create_genes_loop n ds ss r = (ds', ss', r') ->
    List.length ds' = (List.length ds + n)%nat /\
    List.length ss' = (List.length ss + n)%nat /\
    (Forall (fun d => (0 <= d <= 359)%Z) ds ->
     Forall (fun d => (0 <= d <= 359)%Z) ds') /\
    (Forall (fun s => (65 <= s <= 2300)%Z) ss ->
     Forall (fun s => (65 <= s <= 2300)%Z) ss') /\
    r' = Random.advance (2 * n) r.
Proof.
  induction n as [| n IH]; simpl; intros ds ss r ds' ss' r' H.
  - injection H as <- <- <-. repeat split; auto.
    destruct r; unfold Random.advance; simpl. f_equal. lia.
  - apply IH in H. destruct H as (Ld & Ls & Fd & Fs & ->).
    rewrite length_app in Ld, Ls. simpl in Ld, Ls.
    repeat split; try lia.
    + intros F. apply Fd. apply Forall_app. split; [exact F |].
      constructor; [| constructor]. apply (randint_range 0 359 r). lia.
    + intros F. apply Fs. apply Forall_app. split; [exact F |].
      constructor; [| constructor].
      apply (randint_range 65 2300 (Random.advance 1 r)). lia.
    + destruct r; unfold Random.advance; simpl. f_equal. lia.
Qed.

Lemma create_genes_spec (b b' : Basketball.t) (r r' : Random.t) :
  Basketball.create_genes b r = Some (b', r') ->
  valid_genes b' /\ Basketball.gene_i b' = 0%nat /\
  b' = Basketball.set_genes (Basketball.set_gene_i b 0)
         (Basketball.gene_dir b') (Basketball.gene_strength b') /\
  r' = Random.advance 6 r.
Proof.
  unfold Basketball.create_genes, draw.
  destruct (Basketball.create_genes_loop 3 [] [] r) as [[ds ss] r1] eqn:E.
  intros [= <- <-].
  apply create_genes_loop_spec in E. destruct E as (Ld & Ls & Fd & Fs & ->).
  repeat split; simpl; auto.
Qed.

Lemma apply_gene_valid (b : Basketball.t) :
  valid_genes b -> (Basketball.gene_i b <= 3)%nat ->
  exists b', Basketball.apply_gene b = Some b' /\
    valid_genes b' /\
    Basketball.gene_i b' = Nat.min 3 (Basketball.gene_i b + 1) /\
    Basketball.gene_dir b' = Basketball.gene_dir b /\
    Basketball.gene_strength b' = Basketball.gene_strength b.
Proof.
  intros V Hi. pose proof V as (Ld & Ls & _).
  destruct (apply_gene_shape b Ld Ls) as [H3 Hlt].
  destruct (Nat.eq_dec (Basketball.gene_i b) 3) as [E | NE].
  - exists b. rewrite (H3 E), E. repeat split; try apply V.
  - destruct Hlt as (d & s & _ & _ & A); [lia |].
    eexists. split; [exact A |].
    unfold valid_genes, Basketball.set_gene_i, Basketball.set_force.
    cbn [Basketball.gene_i Basketball.gene_dir Basketball.gene_strength].
    repeat split; try apply V; lia.
Qed.

Lemma update_valid (dt : R) (b b' : Basketball.t) :
  Basketball.update dt b = Some b' ->
  (valid_genes b -> valid_genes b') /\
  Basketball.gene_i b' = Basketball.gene_i b.
Proof.
  intros U. apply update_frame in U. destruct U as ((Gi & Gd & Gs) & _).
  unfold valid_genes. rewrite Gi, Gd, Gs. tauto.
Qed.

Lemma advance_advance (a b : nat) (r : Random.t) :
  Random.advance a (Random.advance b r) = Random.advance (b + a) r.
Proof. unfold Random.advance; simpl. f_equal. lia. Qed.

Lemma advance_0 (r : Random.t) : Random.advance 0 r = r.
Proof. destruct r; unfold Random.advance; simpl. f_equal. lia. Qed.

(** ** [Generation.__init__] *)

Lemma launched_gene_i (b : Basketball.t) : launched b -> Basketball.gene_i b = 1%nat.
Proof. intros (_ & d & s & _ & _ & E). rewrite E. reflexivity. Qed.

Lemma create_then_apply (b1 b2 : Basketball.t) :
  (exists r1 r2, Basketball.create_genes
                   (Basketball.init (Vector2.mk (50 / UNIT) (650 / UNIT))) r1
                 = Some (b1, r2)) ->
  Basketball.apply_gene b1 = Some b2 ->
  launched b2.
Proof.
  intros (r1 & r2 & C) A.
  apply create_genes_spec in C. destruct C as (V & Gi & E & _).
  pose proof V as (Ld & Ls & _).
  destruct (apply_gene_shape b1 Ld Ls) as [_ Hlt].
  destruct Hlt as (d & s & Nd & Ns & A'); [lia |].
  rewrite A in A'. injection A' as ->.
  split; [exact V |].
  exists d, s. rewrite Gi in Nd, Ns. rewrite Gi.
  split; [exact Nd |]. split; [exact Ns |].
  rewrite E at 1. reflexivity.
Qed.

Lemma for_each_create_genes (l : list Basketball.t) :
  forall r, exists l',
    for_each Basketball.create_genes l r =
      Some (l', Random.advance (6 * List.length l) r).
Proof.
  induction l as [| b l IH]; intros r.
  - exists []. simpl. unfold ret. rewrite advance_0. reflexivity.
  - simpl for_each. unfold bind.
    destruct (Basketball.create_genes b r) as [[b' r1]|] eqn:C.
    2: { unfold Basketball.create_genes, draw in C. discriminate. }
    pose proof (create_genes_spec _ _ _ _ C) as (_ & _ & _ & ->).
    destruct (IH (Random.advance 6 r)) as (l' & ->).
    exists (b' :: l'). unfold ret. rewrite advance_advance.
    do 3 f_equal. simpl List.length. lia.
Qed.

Lemma Generation_init_spec (n : nat) (r : Random.t) :
  exists g,
    Generation.init n r = Some (g, Random.advance (6 * n) r) /\
    Generation.last_gene g = 0%nat /\
    List.length (Generation.population g) = n /\
    Forall launched (Generation.population g).
Proof.
  unfold Generation.init, bind.
  set (balls := repeat (Basketball.init (Vector2.mk (50 / UNIT) (650 / UNIT))) n).
  destruct (for_each_create_genes balls r) as (l1 & C). rewrite C.
  replace (List.length balls) with n by (unfold balls; rewrite repeat_length; reflexivity).
  pose proof (for_each_Forall2 _ _ _ _ _ C) as F.
  assert (V : Forall (fun b => valid_genes b /\ Basketball.gene_i b = 0%nat) l1).
  { apply (Forall2_Forall_r _ (fun _ => True) _ _ _
             (fun a b _ H => match H with
                             | ex_intro _ r1 (ex_intro _ r2 E) =>
                                 let S := create_genes_spec a b r1 r2 E in
                                 conj (proj1 S) (proj1 (proj2 S))
                             end) F).
    apply Forall_forall. trivial. }
  destruct (for_each_opt_total Basketball.apply_gene _ l1
              (fun b '(conj Vb Gb) =>
                 match apply_gene_valid b Vb (eq_ind_r (fun k => (k <= 3)%nat)
                                                       (Nat.le_0_l 3) Gb) with
                 | ex_intro _ b' (conj E _) => ex_intro _ b' E
                 end) V) as (l2 & A).
  unfold lift. rewrite A. unfold ret.
  exists (Generation.mk l2 0). repeat split.
  - simpl. apply for_each_opt_Forall2 in A.
    rewrite <- (Forall2_length A), <- (Forall2_length F).
    unfold balls. apply repeat_length.
  - simpl. apply for_each_opt_Forall2 in A.
    assert (F' : Forall (fun b1 => exists r1 r2,
                           Basketball.create_genes
                             (Basketball.init (Vector2.mk (50 / UNIT) (650 / UNIT))) r1
                           = Some (b1, r2)) l1).
    { apply (Forall2_Forall_r _ (fun a => a = Basketball.init
                                               (Vector2.mk (50 / UNIT) (650 / UNIT)))
               _ _ _ (fun a b Ha H => eq_ind _ (fun a0 => exists r1 r2,
                                                  Basketball.create_genes a0 r1
                                                  = Some (b, r2)) H _ Ha) F).
      apply Forall_forall. intros a Ha. apply repeat_spec in Ha. exact Ha. }
    apply (Forall2_Forall_r _ _ _ _ _
             (fun b1 b2 H1 H2 => create_then_apply b1 b2 H1 H2) A F').
Qed.

(** ** [Generation.update] *)

(** The timer test: [last_gene > FPS * SHOT_DURATION] is [last_gene > 420]. *)
Lemma timer_test (t : nat) :
  Rgtb (INR t) (FPS * SHOT_DURATION) = true <-> (420 < t)%nat.
Proof.
  rewrite Rgtb_true. unfold FPS, SHOT_DURATION.
  replace (60 * 7.0) with (INR 420) by (rewrite INR_IZR_INZ; simpl; lra).
  split; [apply INR_lt | apply lt_INR].
Qed.

Lemma timer_test_false (t : nat) :
  Rgtb (INR t) (FPS * SHOT_DURATION) = false <-> (t <= 420)%nat.
Proof.
  pose proof (timer_test t) as [H1 H2].
  destruct (Rgtb (INR t) (FPS * SHOT_DURATION)); split; intros H; try reflexivity.
  - discriminate.
  - specialize (H1 eq_refl). lia.
  - destruct (le_lt_dec t 420) as [Le | Lt]; [exact Le |].
    specialize (H2 Lt). discriminate.
Qed.

Lemma step_physics_spec (dt : R) (g g' : Generation.t) (is_done : bool) :
  Generation.step_physics dt g = Some (g', is_done) ->
  is_done = false /\
  Generation.last_gene g' = Generation.last_gene g /\
  Forall2 (fun b b' => Basketball.update dt b = Some b')
          (Generation.population g) (Generation.population g').
Proof.
  unfold Generation.step_physics.
  destruct (for_each_opt _ _) as [balls|] eqn:E; [| discriminate].
  intros [= <- <-]. repeat split. apply for_each_opt_Forall2. exact E.
Qed.

Lemma physics_keeps_genes (dt : R) (l l' : list Basketball.t) :
  Forall2 (fun b b' => Basketball.update dt b = Some b') l l' ->
  (Forall valid_genes l -> Forall valid_genes l') /\
  (forall c, Forall (fun b => Basketball.gene_i b = c) l ->
             Forall (fun b => Basketball.gene_i b = c) l').
Proof.
  intros F. split.
  - apply (Forall2_Forall_r _ _ _ _ _
             (fun b b' V U => proj1 (update_valid dt b b' U) V) F).
  - intros c.
    apply (Forall2_Forall_r _ _ _ _ _
             (fun b b' (G : Basketball.gene_i b = c) U =>
                eq_trans (proj2 (update_valid dt b b' U)) G) F).
Qed.

Lemma apply_gene_all (c : nat) (l l' : list Basketball.t) :
  (c < 3)%nat ->
  Forall valid_genes l ->
  Forall (fun b => Basketball.gene_i b = c) l ->
  Forall2 (fun b b' => Basketball.apply_gene b = Some b') l l' ->
  Forall valid_genes l' /\ Forall (fun b => Basketball.gene_i b = (c + 1)%nat) l'.
Proof.
  intros Hc V G F. revert V G.
  induction F as [| b b' l l' A F IH]; intros V G; [split; constructor |].
  inversion V as [| ? ? Vb Vl]; inversion G as [| ? ? Gb Gl]; subst.
  destruct (IH Vl Gl) as [IV IG].
  destruct (apply_gene_valid b Vb) as (b2 & A2 & V2 & G2 & _); [lia |].
  rewrite A in A2. injection A2 as <-.
  split; constructor; auto. rewrite G2. lia.
Qed.

(** The three ways a call of [Generation.update] can return, on a
    generation in lockstep at gene index [c]. *)
Lemma Generation_update_cases (dt : R) (c : nat) (g g' : Generation.t) (is_done : bool) :
  (c <= 3)%nat ->
  lockstep c g ->
  Forall valid_genes (Generation.population g) ->
  Generation.update dt g = Some (g', is_done) ->
  Forall valid_genes (Generation.population g') /\
  List.length (Generation.population g') = List.length (Generation.population g) /\
  ((Generation.last_gene g + 1 <= 420)%nat /\ is_done = false /\
   Generation.last_gene g' = (Generation.last_gene g + 1)%nat /\ lockstep c g'
   \/
   (420 < Generation.last_gene g + 1)%nat /\ (c < 3)%nat /\ is_done = false /\
   Generation.last_gene g' = 0%nat /\ lockstep (c + 1) g'
   \/
   (420 < Generation.last_gene g + 1)%nat /\ c = 3%nat /\ is_done = true /\
   g' = Generation.set_last_gene g 0).
Proof.
  intros Hc L V. unfold Generation.update.
  cbn [Generation.last_gene Generation.set_last_gene Generation.population].
  destruct (Rgtb (INR (Generation.last_gene g + 1)) (FPS * SHOT_DURATION)) eqn:T.
  - apply timer_test in T.
    destruct (Generation.population g) as [| ball0 rest] eqn:P; [discriminate |].
    assert (G0 : Basketball.gene_i ball0 = c).
    { unfold lockstep in L. rewrite P in L. inversion L; assumption. }
    rewrite G0. destruct (Nat.eqb_spec c 3) as [-> | NE].
    + intros [= <- <-]. split; [simpl; rewrite P; exact V |].
      split; [simpl; rewrite P; reflexivity |].
      right; right. repeat split; try assumption.
    + destruct (for_each_opt Basketball.apply_gene (ball0 :: rest)) as [balls|] eqn:A;
        [| discriminate].
      intros S. apply step_physics_spec in S. destruct S as (-> & Lg & F).
      apply for_each_opt_Forall2 in A.
      unfold lockstep in L. rewrite P in L.
      destruct (apply_gene_all c _ _ ltac:(lia) V L A) as [V1 G1].
      destruct (physics_keeps_genes dt _ _ F) as [KV KG].
      split; [apply KV; exact V1 |].
      split; [rewrite <- (Forall2_length F); simpl;
              rewrite <- (Forall2_length A); reflexivity |].
      right; left. repeat split; try assumption; try lia.
      apply KG. exact G1.
  - apply timer_test_false in T.
    intros S. apply step_physics_spec in S. destruct S as (-> & Lg & F).
    destruct (physics_keeps_genes dt _ _ F) as [KV KG].
    split; [apply KV; exact V |].
    split; [rewrite <- (Forall2_length F); reflexivity |].
    left. repeat split; try assumption. apply KG. exact L.
Qed.

(** ** Completion timing *)

(** A run that starts at gene index [c] with the timer at [t] is
    [421 * (c - 1) + t] calls into the generation; no call up to the
    1262nd returns true. *)
Lemma run_timing (dts : list R) :
  forall (c t : nat) (g g' : Generation.t) (flags : list bool),
    (1 <= c <= 3)%nat -> (t <= 420)%nat ->
    lockstep c g ->
    Forall valid_genes (Generation.population g) ->
    Generation.last_gene g = t ->
    (421 * (c - 1) + t + List.length dts <= 1262)%nat ->
    Generation.run dts g = Some (g', flags) ->
    flags = repeat false (List.length dts) /\
    List.length (Generation.population g') = List.length (Generation.population g) /\
    exists c' t',
      (1 <= c' <= 3)%nat /\ (t' <= 420)%nat /\
      lockstep c' g' /\
      Forall valid_genes (Generation.population g') /\
      Generation.last_gene g' = t' /\
      (421 * (c' - 1) + t' = 421 * (c - 1) + t + List.length dts)%nat.
Proof.
  induction dts as [| dt dts IH]; intros c t g g' flags Hc Ht L V Lg Hk R.
  - simpl in R. injection R as <- <-. repeat split.
    exists c, t. simpl. repeat split; try assumption; lia.
  - simpl in R.
    destruct (Generation.update dt g) as [[g1 d]|] eqn:U; [| discriminate].
    destruct (Generation.run dts g1) as [[g2 fl]|] eqn:R1; [| discriminate].
    injection R as <- <-.
    simpl List.length in Hk.
    destruct (Generation_update_cases dt c g g1 d ltac:(lia) L V U)
      as (V1 & Len & [(T & -> & Lg1 & L1) | [(T & C & -> & Lg1 & L1) | (T & C & _)]]).
    + destruct (IH c (t + 1)%nat g1 g2 fl) as (F & Len' & c' & t' & H);
        try assumption; try lia.
      split; [simpl; rewrite F; reflexivity |].
      split; [lia |]. exists c', t'.
      simpl List.length. repeat split; try apply H; lia.
    + destruct (IH (c + 1)%nat 0%nat g1 g2 fl) as (F & Len' & c' & t' & H);
        try assumption; try lia.
      split; [simpl; rewrite F; reflexivity |].
      split; [lia |]. exists c', t'.
      simpl List.length. repeat split; try apply H; lia.
    + lia.
Qed.

(** The call that finds the timer at 420 and every ball at gene index 3. *)
Lemma update_done (dt : R) (g : Generation.t) :
  Generation.population g <> [] ->
  lockstep 3 g ->
  Generation.last_gene g = 420%nat ->
  Generation.update dt g = Some (Generation.set_last_gene g 0, true).
Proof.
  intros NE L T. unfold Generation.update.
  cbn [Generation.last_gene Generation.set_last_gene Generation.population].
  rewrite T.
  assert (E : Rgtb (INR (420 + 1)) (FPS * SHOT_DURATION) = true)
    by (apply timer_test; lia).
  rewrite E.
  unfold lockstep in L.
  destruct (Generation.population g) as [| ball0 rest]; [congruence |].
  inversion L as [| ? ? G0 _]; subst. rewrite G0. reflexivity.
Qed.


(** *** A generation whose run completes *)

Lemma update_vertical (dt : R) (b : Basketball.t) :
  vertical b ->
  exists b', Basketball.update dt b = Some b' /\ vertical b'.
Proof.
  intros (Px & Vx & Fx & Rd & Gd).
  assert (V1 : Vector2.x (Basketball.velocity
                            (Basketball.integrate_acceleration dt b)) = 0).
  { unfold Basketball.integrate_acceleration, Vector2.add, Vector2.scale.
    cbn [Basketball.velocity Basketball.set_velocity Vector2.x].
    rewrite Vx, Fx. ring. }
  assert (Hhoop : Basketball.radius b + 0.3 <
                  distance (Basketball.net b) (predicted dt b)).
  { eapply Rlt_le_trans; [| apply length_ge_abs_x].
    unfold predicted, future_vel, Basketball.net, Vector2.sub, Vector2.add,
      Vector2.scale.
    cbn [Vector2.x Vector2.y]. rewrite V1, Px, Rd.
    rewrite Rmax_left by lra. rewrite Rabs_pos_eq; lra. }
  rewrite (update_no_hoop dt b Hhoop).
  eexists. split; [reflexivity |].
  unfold vertical, Basketball.integrate_velocity.
  cbn [Basketball.position Basketball.velocity Basketball.force Basketball.radius
       Basketball.gene_dir Basketball.set_force Basketball.set_position
       Basketball.set_velocity].
  destruct (resolve_walls_frame
              (Vector2.scale (Basketball.velocity
                                (Basketball.integrate_acceleration dt b)) dt)
              (Basketball.integrate_acceleration dt b))
    as (P & _ & _ & _ & Rd' & _ & _ & _ & _ & Gd' & _).
  rewrite P, Rd', Gd', resolve_walls_velocity, V1.
  unfold Vector2.add, Vector2.scale; cbn [Vector2.x Vector2.y Vector2.zero].
  change (Basketball.position (Basketball.integrate_acceleration dt b))
    with (Basketball.position b).
  rewrite Px.
  repeat split; try assumption; destruct (Basketball.crosses_x _ _); ring.
Qed.

Lemma update_vertical_inv (dt : R) (b b' : Basketball.t) :
  vertical b -> Basketball.update dt b = Some b' -> vertical b'.
Proof.
  intros Hb U. destruct (update_vertical dt b Hb) as (b2 & E & V2).
  rewrite U in E. injection E as ->. exact V2.
Qed.

Lemma apply_gene_vertical (b b' : Basketball.t) :
  vertical b -> Basketball.apply_gene b = Some b' -> vertical b'.
Proof.
  intros (Px & Vx & Fx & Rd & Gd). unfold Basketball.apply_gene.
  destruct (Nat.eqb _ _).
  - intros [= <-]. repeat split; assumption.
  - destruct (nth_error (Basketball.gene_dir b) (Basketball.gene_i b)) as [d|] eqn:Ed;
      [| discriminate].
    destruct (nth_error (Basketball.gene_strength b) (Basketball.gene_i b)) as [s|];
      [| discriminate].
    intros [= <-].
    assert (d = 90%Z) as ->.
    { apply nth_error_In in Ed. rewrite Forall_forall in Gd. auto. }
    unfold vertical, Basketball.set_gene_i, Basketball.set_force.
    cbn [Basketball.position Basketball.velocity Basketball.force
         Basketball.radius Basketball.gene_dir].
    rewrite gene_force_90.
    repeat split; assumption.
Qed.

(** On a generation of vertical balls every call of [update] returns. *)
Lemma vertical_update_total (dt : R) (c : nat) (g : Generation.t) :
  (c <= 3)%nat ->
  Generation.population g <> [] ->
  lockstep c g ->
  Forall valid_genes (Generation.population g) ->
  Forall vertical (Generation.population g) ->
  exists g' is_done,
    Generation.update dt g = Some (g', is_done) /\
    Generation.population g' <> [] /\
    Forall vertical (Generation.population g').
Proof.
  intros Hc NE L V Vt.
  assert (Phys : forall g1, Generation.population g1 <> [] ->
                   Forall vertical (Generation.population g1) ->
                   exists g', Generation.step_physics dt g1 = Some (g', false) /\
                     Generation.population g' <> [] /\
                     Forall vertical (Generation.population g')).
  { intros g1 NE1 Vt1. unfold Generation.step_physics.
    destruct (for_each_opt_total (Basketball.update dt) vertical _
                (fun b Hb => match update_vertical dt b Hb with
                             | ex_intro _ b' (conj E _) => ex_intro _ b' E
                             end) Vt1) as (balls & E).
    rewrite E. eexists. split; [reflexivity |].
    apply for_each_opt_Forall2 in E. simpl. split.
    - eapply Forall2_nonempty; eauto.
    - apply (Forall2_Forall_r _ _ _ _ _
               (fun b b' Hb U => update_vertical_inv dt b b' Hb U) E Vt1). }
  unfold Generation.update.
  cbn [Generation.last_gene Generation.set_last_gene Generation.population].
  destruct (Rgtb _ _).
  - destruct (Generation.population g) as [| ball0 rest] eqn:P; [congruence |].
    destruct (Nat.eqb _ 3).
    + eexists _, _. split; [reflexivity |]. simpl. rewrite ?P.
      split; [congruence | exact Vt].
    + destruct (for_each_opt_total Basketball.apply_gene
                  (fun b => valid_genes b /\ Basketball.gene_i b = c) (ball0 :: rest)
                  (fun b '(conj Vb Gb) =>
                     match apply_gene_valid b Vb
                             (eq_ind_r (fun k => (k <= 3)%nat) Hc Gb) with
                     | ex_intro _ b' (conj E _) => ex_intro _ b' E
                     end)) as (balls & A).
      { unfold lockstep in L. rewrite P in L.
        apply Forall_forall. intros b Hb. rewrite Forall_forall in V, L. auto. }
      rewrite A. apply for_each_opt_Forall2 in A.
      destruct (Phys (Generation.set_population (Generation.mk (ball0 :: rest) 0) balls))
        as (g' & S & NE' & V').
      * simpl. eapply Forall2_nonempty; eauto.
      * simpl. apply (Forall2_Forall_r _ _ _ _ _
                        (fun b b' Hb E => apply_gene_vertical b b' Hb E) A Vt).
      * exists g', false. auto.
  - destruct (Phys (Generation.mk (Generation.population g) (Generation.last_gene g + 1)))
      as (g' & S & NE' & V'); try assumption.
    exists g', false. auto.
Qed.

Lemma vertical_run_total (dts : list R) :
  forall (c : nat) (g : Generation.t),
    (c <= 3)%nat ->
    Generation.population g <> [] ->
    lockstep c g ->
    Forall valid_genes (Generation.population g) ->
    Forall vertical (Generation.population g) ->
    exists g' flags, Generation.run dts g = Some (g', flags).
Proof.
  induction dts as [| dt dts IH]; intros c g Hc NE L V Vt; simpl.
  - eexists _, _; reflexivity.
  - destruct (vertical_update_total dt c g Hc NE L V Vt) as (g1 & d & U & NE1 & Vt1).
    rewrite U.
    destruct (Generation_update_cases dt c g g1 d Hc L V U)
      as (V1 & _ & [(_ & _ & _ & L1) | [(_ & C & _ & _ & L1) | (_ & _ & _ & ->)]]).
    + destruct (IH c g1 Hc NE1 L1 V1 Vt1) as (g2 & fl & ->). eexists _, _; reflexivity.
    + destruct (IH (c + 1)%nat g1 ltac:(lia) NE1 L1 V1 Vt1) as (g2 & fl & ->).
      eexists _, _; reflexivity.
    + destruct (IH c (Generation.set_last_gene g 0) Hc NE L V Vt) as (g2 & fl & ->).
      eexists _, _; reflexivity.
Qed.

Lemma vertical_genes :
  Basketball.create_genes_loop 3 [] [] vertical_source =
    ([90; 90; 90]%Z, [65; 65; 65]%Z, Random.advance 6 vertical_source).
Proof. reflexivity. Qed.

Lemma vertical_generation :
  Generation.init 1 vertical_source =
    Some (Generation.mk [vertical_ball] 0, Random.advance 6 vertical_source).
Proof.
  unfold Generation.init, bind, lift, ret.
  cbn [repeat for_each]. unfold bind, ret, Basketball.create_genes, draw.
  rewrite vertical_genes. reflexivity.
Qed.

Lemma vertical_ball_spec :
  valid_genes vertical_ball /\ vertical vertical_ball /\
  Basketball.gene_i vertical_ball = 1%nat.
Proof.
  split; [| split]; [| | reflexivity].
  - unfold valid_genes, vertical_ball; simpl.
    repeat split; repeat constructor; lia.
  - unfold vertical, vertical_ball.
    cbn [Basketball.position Basketball.velocity Basketball.force
         Basketball.radius Basketball.gene_dir Basketball.set_gene_i
         Basketball.set_force Basketball.set_genes Basketball.init].
    rewrite gene_force_90. unfold UNIT, Vector2.zero; cbn [Vector2.x].
    repeat split; try lra. repeat constructor.
Qed.


(** ** The winner *)

Lemma insert_sorted_last (a m : R) (l : list R) :
  last_item l = Some m ->
  (forall x, In x l -> x <= m) ->
  exists m', last_item (insert_sorted a l) = Some m' /\
             (m' = a \/ m' = m) /\ a <= m' /\ m <= m'.
Proof.
  induction l as [| b l IH]; [discriminate |].
  intros Hl Hmax. simpl insert_sorted.
  destruct (Rleb b a) eqn:C.
  - apply Rleb_true in C. destruct l as [| b' l'].
    + simpl in Hl. injection Hl as <-. exists a. simpl. repeat split; auto; lra.
    + destruct IH as (m' & E & Hm'); [exact Hl | intros x Hx; apply Hmax; right; exact Hx |].
      exists m'. split; [| exact Hm'].
      simpl insert_sorted in *. destruct (Rleb b' a); exact E.
  - apply Rleb_false in C. exists m. split; [exact Hl |].
    assert (b <= m) by (apply Hmax; left; reflexivity).
    repeat split; auto; lra.
Qed.

Lemma sorted_last (l : list R) :
  l <> [] ->
  exists m, last_item (sorted l) = Some m /\ In m l /\ forall x, In x l -> x <= m.
Proof.
  induction l as [| a l IH]; [congruence |]. intros _.
  destruct l as [| b l'].
  - exists a. simpl. repeat split; auto. intros x [-> | []]. lra.
  - destruct IH as (m & E & Hin & Hmax); [discriminate |].
    assert (Hs : forall x, In x (sorted (b :: l')) -> x <= m).
    { intros x Hx. apply Hmax. clear - Hx.
      revert x Hx. generalize (b :: l'). intros l. induction l as [| c l IH]; simpl.
      - intros x [].
      - intros x Hx.
        assert (Hi : forall s, In x (insert_sorted c s) -> x = c \/ In x s).
        { induction s as [| d s IHs]; simpl.
          - intros [<- | []]; auto.
          - destruct (Rleb d c); simpl.
            + intros [<- | H]; auto. destruct (IHs H); auto.
            + intros [<- | [<- | H]]; auto. }
        destruct (Hi _ Hx) as [-> | H]; auto. }
    destruct (insert_sorted_last a m (sorted (b :: l')) E Hs) as (m' & E' & [-> | ->] & Ha & Hm).
    + exists a. split; [exact E' |]. split; [left; reflexivity |].
      intros x [<- | Hx]; [lra |]. specialize (Hmax x Hx). lra.
    + exists m. split; [exact E' |]. split; [right; exact Hin |].
      intros x [<- | Hx]; [lra |]. apply Hmax; exact Hx.
Qed.

Lemma find_first {A} (f : A -> bool) (l : list A) (w : A) :
  find f l = Some w ->
  exists l1 l2, l = l1 ++ w :: l2 /\ f w = true /\ forall b, In b l1 -> f b = false.
Proof.
  induction l as [| a l IH]; simpl; [discriminate |].
  destruct (f a) eqn:E.
  - intros [= <-]. exists [], l. repeat split; auto. intros b [].
  - intros H. destruct (IH H) as (l1 & l2 & -> & Hw & Hl1).
    exists (a :: l1), l2. repeat split; auto.
    intros b [<- | Hb]; auto.
Qed.

(** [winner] on a generation with at least one ball: the first ball, in
    population order, whose fitness is the highest of the population. *)
Lemma winner_spec (g : Generation.t) :
  Generation.population g <> [] ->
  exists w l1 l2,
    Generation.winner g = Some (Some w) /\
    Generation.highest_fitness g = Some (Basketball.fitness w) /\
    Generation.population g = l1 ++ w :: l2 /\
    (forall b, In b (Generation.population g) ->
               Basketball.fitness b <= Basketball.fitness w) /\
    (forall b, In b l1 -> Basketball.fitness b < Basketball.fitness w).
Proof.
  intros NE. unfold Generation.winner, Generation.highest_fitness.
  destruct (sorted_last (map Basketball.fitness (Generation.population g)))
    as (m & E & Hin & Hmax).
  { destruct (Generation.population g); [congruence | discriminate]. }
  rewrite E. apply in_map_iff in Hin. destruct Hin as (b0 & Hb0 & Hin0).
  destruct (find (fun ball => Reqb (Basketball.fitness ball) m) (Generation.population g))
    as [w|] eqn:F.
  - destruct (find_first _ _ _ F) as (l1 & l2 & P & Hw & Hl1).
    apply Reqb_true in Hw. clear Hb0. subst m.
    exists w, l1, l2.
    split; [reflexivity |]. split; [reflexivity |]. split; [exact P |]. split.
    + intros b Hb. apply Hmax. apply in_map. exact Hb.
    + intros b Hb.
      assert (Basketball.fitness b <= Basketball.fitness w).
      { apply Hmax. apply in_map. rewrite P. apply in_or_app. left; exact Hb. }
      specialize (Hl1 b Hb). unfold Reqb in Hl1.
      destruct (Req_dec_T (Basketball.fitness b) (Basketball.fitness w));
        [discriminate | lra].
  - exfalso. pose proof (find_none _ _ F b0 Hin0) as H. simpl in H.
    unfold Reqb in H. destruct (Req_dec_T (Basketball.fitness b0) m); congruence.
Qed.

Lemma winner_empty (g : Generation.t) :
  Generation.population g = [] -> Generation.winner g = None.
Proof.
  intros E. unfold Generation.winner, Generation.highest_fitness. rewrite E. reflexivity.
Qed.

(** ** Inheritance *)

Lemma no_mutation (r : Random.t) :
  Rltb (fst (Random.random r)) MUTATION_CHANCE = false.
Proof.
  apply Rltb_false. unfold MUTATION_CHANCE.
  pose proof (random_range r). lra.
Qed.

(** The two branches of one gene slot; either way three draws are used. *)
Lemma inherit_gene_cases (winner : option Basketball.t) (i : nat) (r : Random.t) :
  (fst (Random.random r) < 0.75 ->
   Solver.inherit_gene winner i r =
     match Solver.winner_dir winner i, Solver.winner_strength winner i with
     | Some d, Some s => Some ((d, s), Random.advance 3 r)
     | _, _ => None
     end) /\
  (0.75 <= fst (Random.random r) ->
   Solver.inherit_gene winner i r =
     Some ((fst (Random.randint 0 359 (Random.advance 1 r)),
            fst (Random.randint 65 2300 (Random.advance 2 r))),
           Random.advance 3 r)).
Proof.
  unfold Solver.inherit_gene, bind, draw, lift, ret.
  split; intros H.
  - apply Rltb_true in H.
    change (fst (Random.random r)) with (IZR (Random.raw r mod 2 ^ 53) / IZR (2 ^ 53)) in H.
    cbn [Random.random]. rewrite H.
    pose proof (no_mutation (Random.advance 1 r)) as N1.
    pose proof (no_mutation (Random.advance 1 (Random.advance 1 r))) as N2.
    cbn [Random.random fst] in N1, N2. rewrite N1.
    destruct (Solver.winner_dir winner i) as [d|]; [| reflexivity].
    rewrite N2.
    destruct (Solver.winner_strength winner i) as [s|]; [| reflexivity].
    rewrite !advance_advance. reflexivity.
  - apply Rltb_false in H.
    change (fst (Random.random r)) with (IZR (Random.raw r mod 2 ^ 53) / IZR (2 ^ 53)) in H.
    cbn [Random.random]. rewrite H.
    cbn [Random.randint fst]. rewrite !advance_advance. reflexivity.
Qed.

Lemma inherit_gene_advance (winner : option Basketball.t) (i : nat)
      (r r' : Random.t) (d s : Z) :
  Solver.inherit_gene winner i r = Some ((d, s), r') -> r' = Random.advance 3 r.
Proof.
  destruct (inherit_gene_cases winner i r) as [H1 H2].
  destruct (Rlt_le_dec (fst (Random.random r)) 0.75) as [C | C].
  - rewrite (H1 C).
    destruct (Solver.winner_dir winner i); [| discriminate].
    destruct (Solver.winner_strength winner i); [| discriminate].
    intros [= _ _ <-]. reflexivity.
  - rewrite (H2 C). intros [= _ _ <-]. reflexivity.
Qed.

(** The three slots of one ball: nine draws, three per slot, slot [i]
    decided at offset [3 * i]. *)
Lemma inherit_loop_spec (winner : option Basketball.t) (r r' : Random.t)
      (gene_dir gene_strength : list Z) :
  Solver.inherit_loop winner (seq 0 3) [] [] r = Some ((gene_dir, gene_strength), r') ->
  r' = Random.advance 9 r /\
  List.length gene_dir = 3%nat /\ List.length gene_strength = 3%nat /\
  forall i, (i < 3)%nat ->
    exists d s,
      nth_error gene_dir i = Some d /\ nth_error gene_strength i = Some s /\
      Solver.inherit_gene winner i (Random.advance (3 * i) r) =
        Some ((d, s), Random.advance (3 * i + 3) r).
Proof.
  cbn [seq Solver.inherit_loop]. unfold bind, ret.
  destruct (Solver.inherit_gene winner 0 r) as [[[d0 s0] r1]|] eqn:E0; [| discriminate].
  pose proof (inherit_gene_advance _ _ _ _ _ _ E0) as ->.
  destruct (Solver.inherit_gene winner 1 (Random.advance 3 r)) as [[[d1 s1] r2]|] eqn:E1;
    [| discriminate].
  pose proof (inherit_gene_advance _ _ _ _ _ _ E1) as ->.
  rewrite advance_advance in *.
  destruct (Solver.inherit_gene winner 2 (Random.advance (3 + 3) r)) as [[[d2 s2] r3]|] eqn:E2;
    [| discriminate].
  pose proof (inherit_gene_advance _ _ _ _ _ _ E2) as ->.
  rewrite advance_advance in *.
  intros [= <- <- <-]. repeat split.
  intros i Hi.
  destruct i as [| [| [| i]]]; [| | | lia].
  - exists d0, s0. rewrite advance_0. auto.
  - exists d1, s1. auto.
  - exists d2, s2. auto.
Qed.

Lemma overwrite_genes_spec (winner : option Basketball.t) (ball ball' : Basketball.t)
      (r r' : Random.t) :
  Solver.overwrite_genes winner ball r = Some (ball', r') ->
  r' = Random.advance 9 r /\
  ball' = Basketball.set_genes ball (Basketball.gene_dir ball')
                               (Basketball.gene_strength ball') /\
  List.length (Basketball.gene_dir ball') = 3%nat /\
  List.length (Basketball.gene_strength ball') = 3%nat /\
  forall i, (i < 3)%nat ->
    exists d s,
      nth_error (Basketball.gene_dir ball') i = Some d /\
      nth_error (Basketball.gene_strength ball') i = Some s /\
      Solver.inherit_gene winner i (Random.advance (3 * i) r) =
        Some ((d, s), Random.advance (3 * i + 3) r).
Proof.
  unfold Solver.overwrite_genes, bind, ret.
  destruct (Solver.inherit_loop winner (seq 0 3) [] [] r) as [[[gd gs] r1]|] eqn:E;
    [| discriminate].
  intros [= <- <-]. apply inherit_loop_spec in E.
  destruct E as (-> & Ld & Ls & H). repeat split; assumption.
Qed.

(** A loop whose body uses [step] draws: the body of item [k] starts at
    offset [step * k]. *)
Lemma for_each_indexed {A B} (f : A -> M B) (step : nat) :
  (forall a r b r', f a r = Some (b, r') -> r' = Random.advance step r) ->
  forall (l : list A) (r r' : Random.t) (l' : list B),
    for_each f l r = Some (l', r') ->
    r' = Random.advance (step * List.length l) r /\
    List.length l' = List.length l /\
    forall k b, nth_error l' k = Some b ->
      exists a, nth_error l k = Some a /\
        f a (Random.advance (step * k) r) =
          Some (b, Random.advance (step * k + step) r).
Proof.
  intros Hf. induction l as [| a l IH]; intros r r' l' H; simpl in H.
  - unfold ret in H. injection H as <- <-.
    rewrite Nat.mul_0_r, advance_0. repeat split.
    intros [| k] b; discriminate.
  - unfold bind, ret in H.
    destruct (f a r) as [[b0 r1]|] eqn:E; [| discriminate].
    destruct (for_each f l r1) as [[bs r2]|] eqn:E'; [| discriminate].
    injection H as <- <-.
    pose proof (Hf _ _ _ _ E) as ->.
    destruct (IH _ _ _ E') as (-> & Len & Hk).
    rewrite advance_advance. split; [f_equal; simpl; lia |].
    split; [simpl; congruence |].
    intros [| k] b Hb; simpl in Hb.
    + injection Hb as <-. exists a. rewrite Nat.mul_0_r, advance_0.
      split; [reflexivity | exact E].
    + destruct (Hk k b Hb) as (a' & Ha' & Fa').
      exists a'. split; [exact Ha' |].
      rewrite !advance_advance in Fa'.
      replace (step * S k)%nat with (step + step * k)%nat by lia.
      rewrite <- Nat.add_assoc. exact Fa'.
Qed.

(** What [next_generation] is made of. *)
Lemma next_generation_spec (s s' : Solver.t) (r r' : Random.t) :
  Solver.next_generation s r = Some (s', r') ->
  exists winner g0 balls,
    Generation.winner (Solver.generation s) = Some winner /\
    Generation.init (Solver.population s) r =
      Some (g0, Random.advance (6 * Solver.population s) r) /\
    for_each (Solver.overwrite_genes winner) (Generation.population g0)
             (Random.advance (6 * Solver.population s) r) = Some (balls, r') /\
    s' = Solver.mk (Solver.population s) (Generation.set_population g0 balls)
                   (Solver.generation_n s + 1).
Proof.
  unfold Solver.next_generation, bind, lift, ret.
  destruct (Generation.winner (Solver.generation s)) as [winner|]; [| discriminate].
  destruct (Generation_init_spec (Solver.population s) r) as (g0 & I & _).
  rewrite I.
  destruct (for_each _ _ _) as [[balls r1]|] eqn:F; [| discriminate].
  intros [= <- <-]. exists winner, g0, balls. auto.
Qed.

(** The new population, ball by ball. *)
Lemma next_generation_balls (s s' : Solver.t) (r r' : Random.t) :
  Solver.next_generation s r = Some (s', r') ->
  exists winner g0,
    Generation.winner (Solver.generation s) = Some winner /\
    Generation.init (Solver.population s) r =
      Some (g0, Random.advance (6 * Solver.population s) r) /\
    Generation.last_gene (Solver.generation s') = 0%nat /\
    Solver.population s' = Solver.population s /\
    Solver.generation_n s' = (Solver.generation_n s + 1)%nat /\
    List.length (Generation.population (Solver.generation s')) = Solver.population s /\
    forall k ball,
      nth_error (Generation.population (Solver.generation s')) k = Some ball ->
      exists fresh,
        nth_error (Generation.population g0) k = Some fresh /\
        launched fresh /\
        Solver.overwrite_genes winner fresh
          (Random.advance (6 * Solver.population s + 9 * k) r) =
          Some (ball, Random.advance (6 * Solver.population s + 9 * k + 9) r).
Proof.
  intros N. destruct (next_generation_spec _ _ _ _ N) as (winner & g0 & balls & W & I & F & ->).
  exists winner, g0. split; [exact W |]. split; [exact I |].
  destruct (Generation_init_spec (Solver.population s) r) as (g0' & I' & Lg & Len & Fl).
  rewrite I in I'. injection I' as <-.
  destruct (for_each_indexed (Solver.overwrite_genes winner) 9
              (fun a r b r' H => proj1 (overwrite_genes_spec winner a b r r' H))
              _ _ _ _ F) as (_ & Len' & Hk).
  cbn [Solver.generation Solver.population Solver.generation_n
       Generation.population Generation.last_gene Generation.set_population].
  split; [exact Lg |]. split; [reflexivity |]. split; [reflexivity |].
  split; [congruence |].
  intros k ball Hb. destruct (Hk k ball Hb) as (fresh & Hf & O).
  exists fresh. split; [exact Hf |].
  split; [rewrite Forall_forall in Fl; apply Fl; eapply nth_error_In; eauto |].
  rewrite !advance_advance, Nat.add_assoc in O. exact O.
Qed.

Lemma inherit_gene_range (winner : option Basketball.t) (i : nat)
      (r r' : Random.t) (d s : Z) :
  (forall w, winner = Some w -> valid_genes w) ->
  Solver.inherit_gene winner i r = Some ((d, s), r') ->
  (0 <= d <= 359)%Z /\ (65 <= s <= 2300)%Z.
Proof.
  intros Hw. destruct (inherit_gene_cases winner i r) as [H1 H2].
  destruct (Rlt_le_dec (fst (Random.random r)) 0.75) as [C | C].
  - rewrite (H1 C).
    destruct winner as [w|]; [| discriminate].
    destruct (Hw w eq_refl) as (_ & _ & Fd & Fs). simpl.
    destruct (nth_error (Basketball.gene_dir w) i) as [d'|] eqn:Ed; [| discriminate].
    destruct (nth_error (Basketball.gene_strength w) i) as [s'|] eqn:Es; [| discriminate].
    intros [= <- <- _].
    apply nth_error_In in Ed, Es. rewrite Forall_forall in Fd, Fs. auto.
  - rewrite (H2 C). intros [= <- <- _].
    split; [apply (randint_range 0 359 (Random.advance 1 r))
           | apply (randint_range 65 2300 (Random.advance 2 r))]; lia.
Qed.

Lemma inherit_gene_total (w : Basketball.t) (i : nat) (r : Random.t) :
  valid_genes w -> (i < 3)%nat ->
  exists d s, Solver.inherit_gene (Some w) i r = Some ((d, s), Random.advance 3 r).
Proof.
  intros (Ld & Ls & _) Hi. destruct (inherit_gene_cases (Some w) i r) as [H1 H2].
  destruct (Rlt_le_dec (fst (Random.random r)) 0.75) as [C | C].
  - rewrite (H1 C). simpl.
    destruct (nth_error (Basketball.gene_dir w) i) as [d|] eqn:Ed.
    2: { apply nth_error_None in Ed. lia. }
    destruct (nth_error (Basketball.gene_strength w) i) as [s|] eqn:Es.
    2: { apply nth_error_None in Es. lia. }
    eauto.
  - rewrite (H2 C). eauto.
Qed.

Lemma overwrite_genes_total (w ball : Basketball.t) (r : Random.t) :
  valid_genes w ->
  exists ball' r', Solver.overwrite_genes (Some w) ball r = Some (ball', r').
Proof.
  intros V. unfold Solver.overwrite_genes. cbn [seq Solver.inherit_loop].
  unfold bind, ret.
  destruct (inherit_gene_total w 0 r V) as (d0 & s0 & ->); [lia |].
  destruct (inherit_gene_total w 1 (Random.advance 3 r) V) as (d1 & s1 & ->); [lia |].
  destruct (inherit_gene_total w 2 (Random.advance 3 (Random.advance 3 r)) V)
    as (d2 & s2 & ->); [lia |].
  eauto.
Qed.

(** [next_generation] returns whenever the generation it replaces has a
    ball and its balls have three genes each. *)
Lemma next_generation_total (s : Solver.t) (r : Random.t) :
  Generation.population (Solver.generation s) <> [] ->
  Forall valid_genes (Generation.population (Solver.generation s)) ->
  exists s' r', Solver.next_generation s r = Some (s', r').
Proof.
  intros NE V.
  destruct (winner_spec _ NE) as (w & l1 & l2 & W & _ & P & _).
  assert (Vw : valid_genes w).
  { rewrite Forall_forall in V. apply V. rewrite P. apply in_or_app. right; left; reflexivity. }
  unfold Solver.next_generation, bind, lift, ret. rewrite W.
  destruct (Generation_init_spec (Solver.population s) r) as (g0 & -> & _).
  destruct (for_each_total (Solver.overwrite_genes (Some w)) (Generation.population g0)
              (fun a r _ => overwrite_genes_total w a r Vw)
              (Random.advance (6 * Solver.population s) r)) as (balls & r1 & ->).
  eauto.
Qed.

(** C3. [MUTATION_CHANCE] is 0.  [next_generation] takes the winner from
    the generation it replaces: the first ball in population order whose
    fitness is the highest.  For ball [k] of the new generation and slot
    [i], the inherit draw is the draw at offset 6 n + 9 k + 3 i of the
    random source (n the population size); when it is below 0.75 the
    slot's direction and strength are the winner's for that slot;
    otherwise they are the next two draws, a [randint(0, 359)] and a
    [randint(65, 2300)], which do not depend on the winner. *)
Theorem inheritance_without_mutation :
  MUTATION_CHANCE = 0 /\
  forall (s s' : Solver.t) (r r' : Random.t),
    Solver.next_generation s r = Some (s', r') ->
    exists w l1 l2,
      Generation.winner (Solver.generation s) = Some (Some w) /\
      Generation.population (Solver.generation s) = l1 ++ w :: l2 /\
      (forall b, In b (Generation.population (Solver.generation s)) ->
                 Basketball.fitness b <= Basketball.fitness w) /\
      (forall b, In b l1 -> Basketball.fitness b < Basketball.fitness w) /\
      forall (k i : nat) (ball : Basketball.t),
        nth_error (Generation.population (Solver.generation s')) k = Some ball ->
        (i < 3)%nat ->
        let r_i := Random.advance (6 * Solver.population s + 9 * k + 3 * i) r in
        (fst (Random.random r_i) < 0.75 ->
         exists d st,
           nth_error (Basketball.gene_dir w) i = Some d /\
           nth_error (Basketball.gene_strength w) i = Some st /\
           nth_error (Basketball.gene_dir ball) i = Some d /\
           nth_error (Basketball.gene_strength ball) i = Some st) /\
        (0.75 <= fst (Random.random r_i) ->
         let d := fst (Random.randint 0 359 (Random.advance 1 r_i)) in
         let st := fst (Random.randint 65 2300 (Random.advance 2 r_i)) in
         nth_error (Basketball.gene_dir ball) i = Some d /\
         nth_error (Basketball.gene_strength ball) i = Some st /\
         (0 <= d <= 359)%Z /\ (65 <= st <= 2300)%Z).
Proof.
  split; [unfold MUTATION_CHANCE; lra |].
  intros s s' r r' N.
  destruct (next_generation_balls _ _ _ _ N) as (winner & g0 & W & _ & _ & _ & _ & _ & Hk).
  assert (NE : Generation.population (Solver.generation s) <> []).
  { intros E. rewrite (winner_empty _ E) in W. discriminate. }
  destruct (winner_spec _ NE) as (w & l1 & l2 & W' & _ & P & Hmax & Hfirst).
  rewrite W in W'. injection W' as ->.
  exists w, l1, l2.
  split; [exact W |]. split; [exact P |]. split; [exact Hmax |].
  split; [exact Hfirst |].
  intros k i ball Hball Hi r_i.
  destruct (Hk k ball Hball) as (fresh & _ & _ & O).
  apply overwrite_genes_spec in O. destruct O as (_ & _ & _ & _ & Hslot).
  destruct (Hslot i Hi) as (d & st & Ed & Es & G).
  rewrite advance_advance in G. fold r_i in G.
  destruct (inherit_gene_cases (Some w) i r_i) as [H1 H2].
  split.
  - intros C. rewrite (H1 C) in G. cbn [Solver.winner_dir Solver.winner_strength] in G.
    destruct (nth_error (Basketball.gene_dir w) i) as [d'|]; [| discriminate].
    destruct (nth_error (Basketball.gene_strength w) i) as [st'|]; [| discriminate].
    injection G as <- <-. exists d', st'. auto.
  - intros C. rewrite (H2 C) in G. injection G as Gd Gs.
    cbv zeta. rewrite <- Gd in Ed. rewrite <- Gs in Es.
    split; [exact Ed |]. split; [exact Es |].
    split; [apply (randint_range 0 359 (Random.advance 1 r_i))
           | apply (randint_range 65 2300 (Random.advance 2 r_i))]; lia.
Qed.

Lemma vertical_solver_init :
  Solver.init 1 vertical_source =
    Some (vertical_solver, Random.advance 6 vertical_source).
Proof.
  unfold Solver.init, bind. rewrite vertical_generation. reflexivity.
Qed.

Lemma inheritance_without_mutation_witness :
  exists (s' : Solver.t) (r' : Random.t) (ball : Basketball.t),
    Solver.next_generation vertical_solver (Random.advance 6 vertical_source)
      = Some (s', r') /\
    nth_error (Generation.population (Solver.generation s')) 0 = Some ball /\
    nth_error (Basketball.gene_dir ball) 0 = Some 90%Z /\
    nth_error (Basketball.gene_strength ball) 0 = Some 65%Z.
Proof.
  destruct vertical_ball_spec as (V & _ & _).
  destruct (next_generation_total vertical_solver (Random.advance 6 vertical_source))
    as (s' & r' & N).
  { discriminate. }
  { constructor; [exact V | constructor]. }
  destruct (next_generation_balls _ _ _ _ N) as (_ & _ & _ & _ & _ & _ & _ & Len & _).
  destruct (Generation.population (Solver.generation s')) as [| ball rest] eqn:P;
    [discriminate Len |].
  destruct inheritance_without_mutation as [_ H].
  destruct (H _ _ _ _ N) as (w & l1 & l2 & W & Pw & _ & _ & Hk).
  destruct l1 as [| b1 l1]; [| destruct l1; discriminate].
  injection Pw as <- _.
  rewrite P in Hk.
  destruct (Hk 0%nat 0%nat ball eq_refl ltac:(lia)) as [Hin _].
  assert (C : IZR 90 / IZR 9007199254740992 < 0.75) by lra.
  destruct (Hin C) as (d & st & Ed & Es & Bd & Bs).
  injection Ed as <-. injection Es as <-.
  exists s', r', ball.
  split; [exact N |]. split; [rewrite P; reflexivity |].
  split; [exact Bd | exact Bs].
Defined.

(** ** Invariants of the reachable states *)

Lemma slots_in_range (P : Z -> Prop) (l : list Z) :
  List.length l = 3%nat ->
  (forall i, (i < 3)%nat -> exists d, nth_error l i = Some d /\ P d) ->
  Forall P l.
Proof.
  intros Len H. apply Forall_forall. intros x Hx.
  apply In_nth_error in Hx. destruct Hx as (i & Hi).
  assert (Hlt : (i < 3)%nat).
  { rewrite <- Len. apply nth_error_Some. rewrite Hi. discriminate. }
  destruct (H i Hlt) as (d & Ed & Pd). rewrite Hi in Ed. injection Ed as ->. exact Pd.
Qed.

Lemma overwrite_genes_valid (winner : option Basketball.t)
      (fresh ball : Basketball.t) (r r' : Random.t) :
  (forall w, winner = Some w -> valid_genes w) ->
  Solver.overwrite_genes winner fresh r = Some (ball, r') ->
  valid_genes ball /\ Basketball.gene_i ball = Basketball.gene_i fresh.
Proof.
  intros Hw O. apply overwrite_genes_spec in O.
  destruct O as (_ & E & Ld & Ls & Hslot).
  split; [| rewrite E; reflexivity].
  unfold valid_genes. split; [exact Ld |]. split; [exact Ls |]. split.
  - apply slots_in_range; [exact Ld |]. intros i Hi.
    destruct (Hslot i Hi) as (d & s & Ed & _ & G).
    exists d. split; [exact Ed |]. apply (inherit_gene_range _ _ _ _ _ _ Hw G).
  - apply slots_in_range; [exact Ls |]. intros i Hi.
    destruct (Hslot i Hi) as (d & s & _ & Es & G).
    exists s. split; [exact Es |]. apply (inherit_gene_range _ _ _ _ _ _ Hw G).
Qed.

Lemma winner_in_population (g : Generation.t) (w : Basketball.t) :
  Generation.winner g = Some (Some w) -> In w (Generation.population g).
Proof.
  unfold Generation.winner. destruct (Generation.highest_fitness g); [| discriminate].
  intros [= F]. apply find_some in F. apply F.
Qed.

Lemma next_generation_inv (s s' : Solver.t) (r r' : Random.t) :
  Forall valid_genes (Generation.population (Solver.generation s)) ->
  Solver.next_generation s r = Some (s', r') ->
  lockstep 1 (Solver.generation s') /\
  Forall valid_genes (Generation.population (Solver.generation s')).
Proof.
  intros V N.
  destruct (next_generation_balls _ _ _ _ N) as (winner & g0 & W & _ & _ & _ & _ & _ & Hk).
  assert (Hw : forall w, winner = Some w -> valid_genes w).
  { intros w ->. apply winner_in_population in W.
    rewrite Forall_forall in V. apply V. exact W. }
  assert (H : forall ball, In ball (Generation.population (Solver.generation s')) ->
                valid_genes ball /\ Basketball.gene_i ball = 1%nat).
  { intros ball Hb. apply In_nth_error in Hb. destruct Hb as (k & Hb).
    destruct (Hk k ball Hb) as (fresh & _ & L & O).
    destruct (overwrite_genes_valid _ _ _ _ _ Hw O) as (Vb & Gb).
    split; [exact Vb |]. rewrite Gb. apply launched_gene_i. exact L. }
  split; [unfold lockstep |]; apply Forall_forall; intros b Hb; apply H; exact Hb.
Qed.

Lemma generation_init_inv (n : nat) (r r' : Random.t) (g : Generation.t) :
  Generation.init n r = Some (g, r') ->
  lockstep 1 g /\ Forall valid_genes (Generation.population g).
Proof.
  intros I. destruct (Generation_init_spec n r) as (g0 & I' & _ & _ & F).
  rewrite I in I'. injection I' as <- _.
  split; [unfold lockstep |]; (eapply Forall_impl; [| exact F]).
  - apply launched_gene_i.
  - intros b H; apply H.
Qed.

Lemma generation_update_inv (dt : R) (g g' : Generation.t) (is_done : bool) :
  (exists c, (c <= 3)%nat /\ lockstep c g /\
             Forall valid_genes (Generation.population g)) ->
  Generation.update dt g = Some (g', is_done) ->
  exists c, (c <= 3)%nat /\ lockstep c g' /\
            Forall valid_genes (Generation.population g').
Proof.
  intros (c & Hc & L & V) U.
  destruct (Generation_update_cases dt c g g' is_done Hc L V U)
    as (V' & _ & [(_ & _ & _ & L') | [(_ & C & _ & _ & L') | (_ & _ & _ & ->)]]).
  - exists c. auto.
  - exists (c + 1)%nat. repeat split; auto. lia.
  - exists c. auto.
Qed.

Lemma gen_reachable_inv (g : Generation.t) :
  gen_reachable g ->
  exists c, (c <= 3)%nat /\ lockstep c g /\
            Forall valid_genes (Generation.population g).
Proof.
  induction 1 as [n r r' g I | dt g g' d _ IH U].
  - exists 1%nat. split; [lia |]. eapply generation_init_inv; eassumption.
  - eapply generation_update_inv; eassumption.
Qed.

Lemma reachable_inv (s : Solver.t) :
  reachable s ->
  exists c, (c <= 3)%nat /\ lockstep c (Solver.generation s) /\
            Forall valid_genes (Generation.population (Solver.generation s)).
Proof.
  induction 1 as [n r r' s I | dt r r' s s' _ IH U | r r' s s' _ IH N
                  | dt s g d _ IH U].
  - unfold Solver.init, bind, ret in I.
    destruct (Generation.init n r) as [[g r1]|] eqn:G; [| discriminate].
    injection I as <- _. exists 1%nat. split; [lia |].
    eapply generation_init_inv; eassumption.
  - unfold Solver.update in U.
    destruct (Generation.update dt (Solver.generation s)) as [[g d]|] eqn:G;
      [| discriminate].
    pose proof (generation_update_inv _ _ _ _ IH G) as (c & Hc & L & V).
    destruct d.
    + unfold bind, lift in U. cbn [Solver.generation Solver.set_generation] in U.
      destruct (Generation.highest_fitness g); [| discriminate].
      exists 1%nat. split; [lia |].
      apply (next_generation_inv (Solver.set_generation s g) s' r r'); assumption.
    + injection U as <- _. exists c. auto.
  - destruct IH as (c & _ & _ & V). exists 1%nat. split; [lia |].
    eapply next_generation_inv; eassumption.
  - eapply generation_update_inv; eassumption.
Qed.


Lemma vertical_solver_reachable : reachable vertical_solver.
Proof. eapply reach_init. exact vertical_solver_init. Qed.



(** C9. In every generation the public operations reach, whether its genes
    come from [create_genes] or were written by [next_generation], every
    ball holds exactly three directions, each in [0, 359], and exactly
    three strengths, each in [65, 2300]. *)
Theorem gene_bounds_invariant :
  (forall g : Generation.t,
     gen_reachable g ->
     forall b, In b (Generation.population g) ->
       List.length (Basketball.gene_dir b) = 3%nat /\
       List.length (Basketball.gene_strength b) = 3%nat /\
       (forall d, In d (Basketball.gene_dir b) -> (0 <= d <= 359)%Z) /\
       (forall s, In s (Basketball.gene_strength b) -> (65 <= s <= 2300)%Z)) /\
  (forall s : Solver.t,
     reachable s ->
     forall b, In b (Generation.population (Solver.generation s)) ->
       List.length (Basketball.gene_dir b) = 3%nat /\
       List.length (Basketball.gene_strength b) = 3%nat /\
       (forall d, In d (Basketball.gene_dir b) -> (0 <= d <= 359)%Z) /\
       (forall s, In s (Basketball.gene_strength b) -> (65 <= s <= 2300)%Z)).
Proof.
  assert (U : forall b, valid_genes b ->
                List.length (Basketball.gene_dir b) = 3%nat /\
                List.length (Basketball.gene_strength b) = 3%nat /\
                (forall d, In d (Basketball.gene_dir b) -> (0 <= d <= 359)%Z) /\
                (forall s, In s (Basketball.gene_strength b) -> (65 <= s <= 2300)%Z)).
  { intros b (Ld & Ls & Fd & Fs). rewrite Forall_forall in Fd, Fs. auto. }
  split.
  - intros g H b Hb. destruct (gen_reachable_inv g H) as (_ & _ & _ & V).
    rewrite Forall_forall in V. apply U, V, Hb.
  - intros s H b Hb. destruct (reachable_inv s H) as (_ & _ & _ & V).
    rewrite Forall_forall in V. apply U, V, Hb.
Qed.

Lemma gene_bounds_invariant_witness :
  List.length (Basketball.gene_dir vertical_ball) = 3%nat /\
  List.length (Basketball.gene_strength vertical_ball) = 3%nat /\
  (forall d, In d (Basketball.gene_dir vertical_ball) -> (0 <= d <= 359)%Z) /\
  (forall s, In s (Basketball.gene_strength vertical_ball) -> (65 <= s <= 2300)%Z).
Proof.
  destruct gene_bounds_invariant as [_ Hs].
  apply (Hs vertical_solver vertical_solver_reachable vertical_ball).
  left; reflexivity.
Defined.

(** ** Gene slot 0 after [next_generation] *)

Lemma resolve_walls_set_genes (fv : Vector2.t) (a : Basketball.t) (ds ss : list Z) :
  Basketball.resolve_walls fv (Basketball.set_genes a ds ss) =
    Basketball.set_genes (Basketball.resolve_walls fv a) ds ss.
Proof.
  destruct a as [p v f m im rd el ff fr gi gd gs].
  unfold Basketball.resolve_walls, Basketball.crosses_x, Basketball.crosses_y,
    Basketball.set_genes, Basketball.set_velocity.
  cbn [Basketball.position Basketball.velocity Basketball.force Basketball.mass
       Basketball.invmass Basketball.radius Basketball.elasticity
       Basketball.fframe Basketball.frame Basketball.gene_i
       Basketball.gene_dir Basketball.gene_strength].
  destruct (Rltb (Vector2.x p + Vector2.x fv - rd) 0
            || Rgtb (Vector2.x p + Vector2.x fv + rd) (WINDOW_WIDTH / UNIT));
    cbn [Basketball.position Basketball.velocity Basketball.radius
         Basketball.elasticity];
    destruct (Rltb (Vector2.y p + Vector2.y fv - rd) 0
              || Rgtb (Vector2.y p + Vector2.y fv + rd) (WINDOW_HEIGHT / UNIT));
    reflexivity.
Qed.

Lemma resolve_hoop_set_genes (fv : Vector2.t) (a : Basketball.t) (ds ss : list Z) :
  Basketball.resolve_hoop fv (Basketball.set_genes a ds ss) =
    match Basketball.resolve_hoop fv a with
    | Some a' => Some (Basketball.set_genes a' ds ss)
    | None => None
    end.
Proof.
  unfold Basketball.resolve_hoop.
  change (Basketball.hoop_dist fv (Basketball.set_genes a ds ss))
    with (Basketball.hoop_dist fv a).
  change (Basketball.radius (Basketball.set_genes a ds ss)) with (Basketball.radius a).
  destruct (Rleb _ _); [| reflexivity].
  change (Basketball.net (Basketball.set_genes a ds ss)) with (Basketball.net a).
  change (Basketball.position (Basketball.set_genes a ds ss))
    with (Basketball.position a).
  destruct (Vector2.normalize _); reflexivity.
Qed.

(** [update] neither reads nor writes the genes. *)
Lemma update_set_genes (dt : R) (a : Basketball.t) (ds ss : list Z) :
  Basketball.update dt (Basketball.set_genes a ds ss) =
    match Basketball.update dt a with
    | Some a' => Some (Basketball.set_genes a' ds ss)
    | None => None
    end.
Proof.
  unfold Basketball.update.
  change (Basketball.integrate_acceleration dt (Basketball.set_genes a ds ss))
    with (Basketball.set_genes (Basketball.integrate_acceleration dt a) ds ss).
  change (Basketball.velocity
            (Basketball.set_genes (Basketball.integrate_acceleration dt a) ds ss))
    with (Basketball.velocity (Basketball.integrate_acceleration dt a)).
  rewrite resolve_walls_set_genes, resolve_hoop_set_genes.
  destruct (Basketball.resolve_hoop _ _); reflexivity.
Qed.

Lemma same_but_slot0_refl (a : Basketball.t) : same_but_slot0 a a.
Proof. destruct a; repeat split. Qed.

Lemma update_same_but_slot0 (dt : R) (a b a' : Basketball.t) :
  same_but_slot0 a b ->
  Basketball.update dt a = Some a' ->
  exists b', Basketball.update dt b = Some b' /\ same_but_slot0 a' b' /\
             Basketball.gene_i a' = Basketball.gene_i a.
Proof.
  intros (E & Len & Td & Ts) U.
  rewrite E, update_set_genes, U. eexists. split; [reflexivity |].
  apply update_frame in U. destruct U as ((Gi & Gd & Gs) & _).
  unfold same_but_slot0. cbn [Basketball.gene_dir Basketball.gene_strength
                              Basketball.set_genes].
  rewrite Gd, Gs. auto.
Qed.

Lemma nth_error_tl {A} (l : list A) (i : nat) :
  nth_error l (S i) = nth_error (tl l) i.
Proof. destruct l; [destruct i |]; reflexivity. Qed.

(** From gene index 1 on, [apply_gene] does not read slot 0. *)
Lemma apply_gene_same_but_slot0 (a b a' : Basketball.t) :
  same_but_slot0 a b ->
  (1 <= Basketball.gene_i a)%nat ->
  Basketball.apply_gene a = Some a' ->
  exists b', Basketball.apply_gene b = Some b' /\ same_but_slot0 a' b' /\
             (1 <= Basketball.gene_i a')%nat.
Proof.
  intros (E & Len & Td & Ts) Hi. unfold Basketball.apply_gene.
  assert (Gi : Basketball.gene_i b = Basketball.gene_i a) by (rewrite E; reflexivity).
  rewrite Gi, Len.
  destruct (Nat.eqb _ _).
  - intros [= <-]. exists b. repeat split; assumption.
  - destruct (Basketball.gene_i a) as [| i] eqn:Ei; [lia |].
    rewrite !nth_error_tl, Td, Ts.
    destruct (nth_error (tl (Basketball.gene_dir a)) i) as [d|]; [| discriminate].
    destruct (nth_error (tl (Basketball.gene_strength a)) i) as [s|]; [| discriminate].
    intros [= <-]. eexists. split; [reflexivity |].
    unfold same_but_slot0, Basketball.set_gene_i, Basketball.set_force.
    cbn [Basketball.gene_dir Basketball.gene_strength Basketball.gene_i
         Basketball.set_genes Basketball.position Basketball.velocity
         Basketball.force Basketball.mass Basketball.invmass Basketball.radius
         Basketball.elasticity Basketball.fframe Basketball.frame].
    repeat split; try assumption; try lia.
    clear - E Ei Gi. destruct a, b. cbn in *.
    injection E; intros; subst. reflexivity.
Qed.

Lemma for_each_opt_related {A} (f : A -> option A) (R : A -> A -> Prop) (P : A -> Prop) :
  (forall a b a', R a b -> P a -> f a = Some a' ->
                  exists b', f b = Some b' /\ R a' b' /\ P a') ->
  forall l m l',
    Forall2 R l m -> Forall P l -> for_each_opt f l = Some l' ->
    exists m', for_each_opt f m = Some m' /\ Forall2 R l' m' /\ Forall P l'.
Proof.
  intros Hf l m l' F. revert l'.
  induction F as [| a b l m Rab F IH]; intros l' HP H; simpl in H.
  - injection H as <-. exists []. repeat split; constructor.
  - inversion HP as [| ? ? Pa Pl]; subst.
    destruct (f a) as [a'|] eqn:Ea; [| discriminate].
    destruct (for_each_opt f l) as [l1|] eqn:El; [| discriminate].
    injection H as <-.
    destruct (Hf a b a' Rab Pa Ea) as (b' & Eb & Rb & Pb).
    destruct (IH l1 Pl eq_refl) as (m1 & Em & Rm & Pm).
    exists (b' :: m1). simpl. rewrite Eb, Em. repeat split; constructor; assumption.
Qed.

(** One call of [Generation.update] on two generations that differ in
    slot 0 only, once every ball is past slot 0. *)
Lemma step_physics_same_but_slot0 (dt : R) (l m : list Basketball.t) (t : nat)
      (n : Generation.t) (is_done : bool) :
  Forall2 same_but_slot0 l m ->
  Forall (fun b => (1 <= Basketball.gene_i b)%nat) l ->
  Generation.step_physics dt (Generation.mk l t) = Some (n, is_done) ->
  exists n',
    Generation.step_physics dt (Generation.mk m t) = Some (n', is_done) /\
    gen_same_but_slot0 n n' /\
    Forall (fun b => (1 <= Basketball.gene_i b)%nat) (Generation.population n).
Proof.
  intros Flm Hl. unfold Generation.step_physics.
  cbn [Generation.population Generation.set_population Generation.last_gene].
  destruct (for_each_opt (Basketball.update dt) l) as [l1|] eqn:E; [| discriminate].
  intros [= <- <-].
  destruct (for_each_opt_related (Basketball.update dt) same_but_slot0
              (fun b => (1 <= Basketball.gene_i b)%nat)) with (l := l) (m := m) (l' := l1)
    as (m1 & Em & Rm & Pm); try assumption.
  { intros a b a' Rab Pa Ua.
    destruct (update_same_but_slot0 dt a b a' Rab Ua) as (b' & Ub & Rb & Gi).
    exists b'. split; [exact Ub |]. split; [exact Rb |]. lia. }
  rewrite Em. eexists. split; [reflexivity |].
  split; [split; [reflexivity | exact Rm] | exact Pm].
Qed.

(** One call of [Generation.update] on two generations that differ in
    slot 0 only, once every ball is past slot 0. *)
Lemma generation_update_same_but_slot0 (dt : R) (g g' g1 : Generation.t) (is_done : bool) :
  gen_same_but_slot0 g g' ->
  Forall (fun b => (1 <= Basketball.gene_i b)%nat) (Generation.population g) ->
  Generation.update dt g = Some (g1, is_done) ->
  exists g1',
    Generation.update dt g' = Some (g1', is_done) /\
    gen_same_but_slot0 g1 g1' /\
    Forall (fun b => (1 <= Basketball.gene_i b)%nat) (Generation.population g1).
Proof.
  destruct g as [l t], g' as [m t']. unfold gen_same_but_slot0.
  cbn [Generation.population Generation.last_gene].
  intros (-> & F) Hi.
  unfold Generation.update.
  cbn [Generation.last_gene Generation.set_last_gene Generation.population].
  destruct (Rgtb _ _).
  - destruct F as [| a b l m Rab F]; [discriminate |].
    assert (Gi : Basketball.gene_i b = Basketball.gene_i a).
    { destruct Rab as (E & _). rewrite E. reflexivity. }
    rewrite Gi. destruct (Nat.eqb _ 3).
    + intros [= <- <-]. eexists. split; [reflexivity |].
      split; [split; [reflexivity | constructor; assumption] | exact Hi].
    + destruct (for_each_opt Basketball.apply_gene (a :: l)) as [l1|] eqn:A;
        [| discriminate].
      destruct (for_each_opt_related Basketball.apply_gene same_but_slot0
                  (fun b => (1 <= Basketball.gene_i b)%nat)
                  apply_gene_same_but_slot0 (a :: l) (b :: m) l1)
        as (m1 & Em & Rm & Pm); try assumption; [constructor; assumption |].
      rewrite Em. apply step_physics_same_but_slot0; assumption.
  - apply step_physics_same_but_slot0; assumption.
Qed.

Lemma run_same_but_slot0 (dts : list R) :
  forall (g g' g1 : Generation.t) (flags : list bool),
    gen_same_but_slot0 g g' ->
    Forall (fun b => (1 <= Basketball.gene_i b)%nat) (Generation.population g) ->
    Generation.run dts g = Some (g1, flags) ->
    exists g1',
      Generation.run dts g' = Some (g1', flags) /\
      gen_same_but_slot0 g1 g1' /\
      Forall (fun b => (1 <= Basketball.gene_i b)%nat) (Generation.population g1).
Proof.
  induction dts as [| dt dts IH]; intros g g' g1 flags S Hi R; simpl in *.
  - injection R as <- <-. exists g'. auto.
  - destruct (Generation.update dt g) as [[g2 d]|] eqn:U; [| discriminate].
    destruct (Generation.run dts g2) as [[g3 fl]|] eqn:R2; [| discriminate].
    injection R as <- <-.
    destruct (generation_update_same_but_slot0 dt g g' g2 d S Hi U) as (g2' & U' & S2 & Hi2).
    destruct (IH g2 g2' g3 fl S2 Hi2 R2) as (g3' & R3 & S3 & Hi3).
    rewrite U', R3. eauto.
Qed.

Lemma Forall2_with_left {A B} (R : A -> B -> Prop) (P : A -> Prop)
      (l : list A) (m : list B) :
  Forall2 R l m -> Forall P l -> Forall2 (fun a b => P a /\ R a b) l m.
Proof.
  induction 1; intros HP; inversion HP; subst; constructor; auto.
Qed.

Lemma gen_same_but_slot0_refl (g : Generation.t) : gen_same_but_slot0 g g.
Proof.
  split; [reflexivity |].
  induction (Generation.population g); constructor; auto using same_but_slot0_refl.
Qed.

(** C4. When [next_generation] returns, every ball of the new generation
    is the ball the [Generation] constructor made (gene index 1, force of
    the constructor's random gene 0) with nothing but its gene lists
    replaced.  From there on no call of [update] reads slot 0: a run gives
    the same flags and the same balls, up to slot 0, whatever slot 0
    holds, and every gene index stays at 1 or more. *)
Theorem first_slot_never_applied :
  forall (s s' : Solver.t) (r r' : Random.t),
    Solver.next_generation s r = Some (s', r') ->
    (exists g0 : Generation.t,
       Generation.init (Solver.population s) r =
         Some (g0, Random.advance (6 * Solver.population s) r) /\
       Forall2
         (fun fresh ball =>
            exists d0 s0,
              nth_error (Basketball.gene_dir fresh) 0 = Some d0 /\
              nth_error (Basketball.gene_strength fresh) 0 = Some s0 /\
              Basketball.gene_i ball = 1%nat /\
              Basketball.force ball = Basketball.gene_force d0 s0 /\
              ball = Basketball.set_genes fresh (Basketball.gene_dir ball)
                                          (Basketball.gene_strength ball))
         (Generation.population g0)
         (Generation.population (Solver.generation s'))) /\
    forall (g_alt : Generation.t) (dts : list R) (g1 : Generation.t) (flags : list bool),
      gen_same_but_slot0 (Solver.generation s') g_alt ->
      Generation.run dts (Solver.generation s') = Some (g1, flags) ->
      Forall (fun b => (1 <= Basketball.gene_i b)%nat) (Generation.population g1) /\
      exists g1',
        Generation.run dts g_alt = Some (g1', flags) /\ gen_same_but_slot0 g1 g1'.
Proof.
  intros s s' r r' N.
  destruct (next_generation_spec _ _ _ _ N) as (winner & g0 & balls & W & I & F & ->).
  destruct (Generation_init_spec (Solver.population s) r) as (g0' & I' & _ & _ & Fl).
  rewrite I in I'. injection I' as <-.
  apply for_each_Forall2 in F.
  pose proof (Forall2_with_left _ _ _ _ F Fl) as F2.
  assert (F3 : Forall2
                 (fun fresh ball =>
                    exists d0 s0,
                      nth_error (Basketball.gene_dir fresh) 0 = Some d0 /\
                      nth_error (Basketball.gene_strength fresh) 0 = Some s0 /\
                      Basketball.gene_i ball = 1%nat /\
                      Basketball.force ball = Basketball.gene_force d0 s0 /\
                      ball = Basketball.set_genes fresh (Basketball.gene_dir ball)
                                                  (Basketball.gene_strength ball))
                 (Generation.population g0) balls).
  { eapply Forall2_impl; [| exact F2].
    intros fresh ball ((_ & d0 & s0 & Ed & Es & Ef) & r1 & r2 & O).
    apply overwrite_genes_spec in O. destruct O as (_ & Eb & _).
    exists d0, s0. split; [exact Ed |]. split; [exact Es |].
    rewrite Eb, Ef. auto. }
  split; [exists g0; split; [exact I | exact F3] |].
  intros g_alt dts g1 flags S R.
  cbn [Solver.generation] in S, R.
  assert (Hi : Forall (fun b => (1 <= Basketball.gene_i b)%nat)
                      (Generation.population (Generation.set_population g0 balls))).
  { cbn [Generation.population Generation.set_population].
    clear - F3. induction F3 as [| fresh ball l m (d0 & s0 & _ & _ & Gi & _) _ IH];
      constructor; [lia | exact IH]. }
  destruct (run_same_but_slot0 dts _ _ _ _ S Hi R) as (g1' & R' & S' & Hi').
  split; [exact Hi' |]. exists g1'. auto.
Qed.

Lemma first_slot_never_applied_witness :
  exists (s' : Solver.t) (r' : Random.t),
    Solver.next_generation vertical_solver (Random.advance 6 vertical_source)
      = Some (s', r') /\
    Forall (fun ball => Basketball.gene_i ball = 1%nat /\
                        exists d0 s0, Basketball.force ball = Basketball.gene_force d0 s0)
           (Generation.population (Solver.generation s')).
Proof.
  destruct vertical_ball_spec as (V & _ & _).
  destruct (next_generation_total vertical_solver (Random.advance 6 vertical_source))
    as (s' & r' & N).
  { discriminate. }
  { constructor; [exact V | constructor]. }
  exists s', r'. split; [exact N |].
  destruct (first_slot_never_applied _ _ _ _ N) as ((g0 & _ & F) & _).
  induction F as [| fresh ball l m (d0 & s0 & _ & _ & Gi & Fo & _) _ IH];
    constructor; [| exact IH].
  split; [exact Gi |]. exists d0, s0. exact Fo.
Defined.

(** * Further properties of the code *)

(** ** When [Basketball.update] raises *)

Lemma net_is_position_iff (b : Basketball.t) :
  Vector2.sub (Basketball.net b) (Basketball.position b) = Vector2.zero <->
  5.3 <= Vector2.x (Basketball.position b) /\ Vector2.y (Basketball.position b) = 3.2.
Proof.
  unfold Basketball.net, Vector2.sub, Vector2.zero; cbn [Vector2.x Vector2.y].
  split.
  - intros [= Hx Hy]. split; [| lra].
    pose proof (Rmax_l 5.3 (Vector2.x (Basketball.position b))). lra.
  - intros [Hx Hy]. rewrite Rmax_right by lra. f_equal; lra.
Qed.

Lemma normalize_none_iff (v : Vector2.t) :
  Vector2.normalize v = None <-> v = Vector2.zero.
Proof.
  unfold Vector2.normalize. destruct (Req_dec_T (Vector2.length v) 0) as [E | NE].
  - split; [intros _; apply length_zero_iff; exact E | reflexivity].
  - split; [discriminate |]. intros ->. exfalso. apply NE.
    apply length_zero_iff. reflexivity.
Qed.

(** X1. [update] raises on exactly one kind of state: the ball is at
    height 3.2 with x at least 5.3, so that the hoop centre is its own
    position, and its predicted position is within [radius + 0.3] of it.
    On every other state it returns. *)
Theorem update_raises_iff :
  forall (dt : R) (b : Basketball.t),
    Basketball.update dt b = None <->
    (distance (Basketball.net b) (predicted dt b) <= Basketball.radius b + 0.3 /\
     5.3 <= Vector2.x (Basketball.position b) /\
     Vector2.y (Basketball.position b) = 3.2).
Proof.
  intros dt b. unfold Basketball.update.
  set (b1 := Basketball.integrate_acceleration dt b).
  set (fv := Vector2.scale (Basketball.velocity b1) dt).
  unfold Basketball.resolve_hoop.
  pose proof (hoop_dist_predicted dt b) as E. cbv zeta in E. fold b1 fv in E.
  rewrite E.
  destruct (resolve_walls_frame fv b1) as (P & _ & _ & _ & Rd & _).
  rewrite Rd. change (Basketball.radius b1) with (Basketball.radius b).
  unfold Basketball.net at 2. rewrite P.
  change (Basketball.position b1) with (Basketball.position b).
  fold (Basketball.net b).
  rewrite <- net_is_position_iff, <- normalize_none_iff.
  destruct (Rleb _ _) eqn:C.
  - apply Rleb_true in C.
    destruct (Vector2.normalize _); split; try discriminate; try tauto.
    intros (_ & H). discriminate.
  - apply Rleb_false in C. split; [discriminate |]. intros (H & _). lra.
Qed.

(** ** Speed through the collisions *)










(** ** What [update] leaves alone *)

(** X3. A completed [update] changes the position, the velocity and the
    force of the ball and nothing else; the force it leaves is zero, so
    the acceleration step of the next tick adds gravity alone: a gene's
    force acts during one tick. *)
Theorem update_touches_motion_only :
  forall (dt : R) (b b' : Basketball.t),
    Basketball.update dt b = Some b' ->
    b' = Basketball.mk
           (Vector2.add (Basketball.position b)
                        (Vector2.scale (Basketball.velocity b') dt))
           (Basketball.velocity b') Vector2.zero
           (Basketball.mass b) (Basketball.invmass b)
           (Basketball.radius b) (Basketball.elasticity b)
           (Basketball.fframe b) (Basketball.frame b)
           (Basketball.gene_i b) (Basketball.gene_dir b)
           (Basketball.gene_strength b) /\
    forall dt' : R,
      Basketball.velocity (Basketball.integrate_acceleration dt' b') =
        Vector2.add (Basketball.velocity b') (Vector2.mk 0 (GRAVITY * dt')).
Proof.
  intros dt b b'. unfold Basketball.update.
  set (b1 := Basketball.integrate_acceleration dt b).
  set (fv := Vector2.scale (Basketball.velocity b1) dt).
  destruct (Basketball.resolve_hoop fv (Basketball.resolve_walls fv b1)) as [b2|] eqn:H;
    [| discriminate].
  intros [= <-].
  apply resolve_hoop_frame in H.
  destruct H as (P & F & Ms & Im & Rd & El & Ff & Fr & G1 & G2 & G3).
  destruct (resolve_walls_frame fv b1)
    as (P' & F' & Ms' & Im' & Rd' & El' & Ff' & Fr' & G1' & G2' & G3').
  split.
  - unfold Basketball.integrate_velocity, Basketball.set_force,
      Basketball.set_position, Basketball.set_velocity.
    cbn [Basketball.position Basketball.velocity Basketball.force Basketball.mass
         Basketball.invmass Basketball.radius Basketball.elasticity
         Basketball.fframe Basketball.frame Basketball.gene_i
         Basketball.gene_dir Basketball.gene_strength].
    rewrite P, P', Ms, Ms', Im, Im', Rd, Rd', El, El', Ff, Ff', Fr, Fr',
      G1, G1', G2, G2', G3, G3'.
    reflexivity.
  - intros dt'. unfold Basketball.integrate_acceleration, Basketball.integrate_velocity.
    cbn [Basketball.velocity Basketball.force Basketball.invmass
         Basketball.set_velocity Basketball.set_force Basketball.set_position].
    unfold Vector2.add, Vector2.scale, Vector2.zero; cbn [Vector2.x Vector2.y].
    f_equal; ring.
Qed.

Lemma update_touches_motion_only_witness :
  exists b',
    Basketball.update HZ vertical_ball = Some b' /\
    Basketball.force b' = Vector2.zero /\
    Basketball.gene_dir b' = [90; 90; 90]%Z /\
    Basketball.gene_i b' = 1%nat.
Proof.
  destruct vertical_ball_spec as (_ & Vt & _).
  destruct (update_vertical HZ vertical_ball Vt) as (b' & U & _).
  exists b'. split; [exact U |].
  destruct (update_touches_motion_only HZ vertical_ball b' U) as (E & _).
  rewrite E. repeat split.
Defined.

(** ** Fitness at its ends *)



(** ** The force of a gene *)




(** ** [apply_gene] over and over *)

(** X6. On a ball with three genes and a gene index of at most 3,
    [apply_gene] can be called any number of times without raising: after
    [k] calls the gene index is min(3, index + k) and the gene lists are
    what they were; once the index is 3 the ball no longer changes. *)
Theorem apply_gene_saturates :
  forall (k : nat) (b : Basketball.t),
    valid_genes b ->
    (Basketball.gene_i b <= 3)%nat ->
    exists b',
      apply_gene_times k b = Some b' /\
      Basketball.gene_i b' = Nat.min 3 (Basketball.gene_i b + k) /\
      Basketball.gene_dir b' = Basketball.gene_dir b /\
      Basketball.gene_strength b' = Basketball.gene_strength b /\
      (Basketball.gene_i b = 3%nat -> b' = b).
Proof.
  induction k as [| k IH]; intros b V Hi.
  - exists b. split; [reflexivity |]. split; [lia |]. auto.
  - cbn [apply_gene_times].
    destruct (apply_gene_valid b V Hi) as (b1 & A & V1 & G1 & D1 & S1).
    rewrite A.
    destruct (IH b1 V1) as (b' & T & G & D & S & Fix); [lia |].
    exists b'. split; [exact T |].
    split; [lia |]. split; [congruence |]. split; [congruence |].
    intros E3. pose proof V as (Ld & Ls & _).
    destruct (apply_gene_shape b Ld Ls) as [H3 _].
    rewrite (H3 E3) in A. injection A as <-. apply Fix. exact E3.
Qed.

Lemma apply_gene_saturates_witness :
  exists b',
    apply_gene_times 5 vertical_ball = Some b' /\
    Basketball.gene_i b' = 3%nat.
Proof.
  destruct vertical_ball_spec as (V & _ & Gi).
  destruct (apply_gene_saturates 5 vertical_ball V) as (b' & T & G & _);
    [rewrite Gi; lia |].
  exists b'. split; [exact T |]. rewrite G, Gi. reflexivity.
Defined.

(** ** [highest_fitness] and [winner] at the edges *)

Lemma fitness_bounds (b : Basketball.t) : 0 <= Basketball.fitness b <= 1.
Proof.
  rewrite fitness_unfold.
  pose proof (length_nonneg (Vector2.sub (Basketball.position b) target)) as Hd.
  fold (distance (Basketball.position b) target) in Hd.
  unfold Rmin. destruct (Rle_dec (distance (Basketball.position b) target) 7); lra.
Qed.

(** X7. On a generation without balls [highest_fitness] and [winner]
    raise.  On any other generation [highest_fitness] returns the largest
    fitness of the population, a number in [0, 1], and [winner] returns a
    ball of the population with that fitness, never [None]. *)
Theorem highest_fitness_and_winner :
  forall g : Generation.t,
    (Generation.population g = [] ->
     Generation.highest_fitness g = None /\ Generation.winner g = None) /\
    (Generation.population g <> [] ->
     exists w : Basketball.t,
       Generation.winner g = Some (Some w) /\
       In w (Generation.population g) /\
       Generation.highest_fitness g = Some (Basketball.fitness w) /\
       0 <= Basketball.fitness w <= 1 /\
       forall b, In b (Generation.population g) ->
                 Basketball.fitness b <= Basketball.fitness w).
Proof.
  intros g. split.
  - intros E. split; [| apply winner_empty; exact E].
    unfold Generation.highest_fitness. rewrite E. reflexivity.
  - intros NE. destruct (winner_spec g NE) as (w & l1 & l2 & W & H & P & Hmax & _).
    exists w. split; [exact W |].
    split; [rewrite P; apply in_or_app; right; left; reflexivity |].
    split; [exact H |]. split; [apply fitness_bounds | exact Hmax].
Qed.

Lemma highest_fitness_and_winner_witness :
  Generation.highest_fitness (Generation.mk [] 0) = None /\
  Generation.winner (Generation.mk [vertical_ball] 0) = Some (Some vertical_ball).
Proof.
  split.
  - apply (highest_fitness_and_winner (Generation.mk [] 0)). reflexivity.
  - destruct (highest_fitness_and_winner (Generation.mk [vertical_ball] 0)) as [_ H].
    destruct H as (w & W & [<- | []] & _); [discriminate |]. exact W.
Defined.

(** ** The shot timer and the size of the population *)

Lemma for_each_opt_length {A B} (f : A -> option B) (l : list A) (l' : list B) :
  for_each_opt f l = Some l' -> List.length l' = List.length l.
Proof.
  intros H. apply for_each_opt_Forall2 in H. symmetry. apply (Forall2_length H).
Qed.

(** What one call of [Generation.update] does to the timer and to the
    size of the population, on any generation. *)
Lemma generation_update_timer (dt : R) (g g' : Generation.t) (is_done : bool) :
  Generation.update dt g = Some (g', is_done) ->
  Generation.last_gene g' =
    (if (420 <? Generation.last_gene g + 1)%nat then 0 else Generation.last_gene g + 1)%nat /\
  List.length (Generation.population g') = List.length (Generation.population g) /\
  (is_done = true -> (420 < Generation.last_gene g + 1)%nat).
Proof.
  unfold Generation.update.
  cbn [Generation.last_gene Generation.set_last_gene Generation.population].
  destruct (Rgtb (INR (Generation.last_gene g + 1)) (FPS * SHOT_DURATION)) eqn:T.
  - apply timer_test in T.
    destruct (Nat.ltb_spec 420 (Generation.last_gene g + 1)) as [_ | ?]; [| lia].
    destruct (Generation.population g) as [| ball0 rest] eqn:P; [discriminate |].
    destruct (Nat.eqb _ 3).
    + intros [= <- <-]. cbn. rewrite P. auto.
    + destruct (for_each_opt Basketball.apply_gene (ball0 :: rest)) as [balls|] eqn:A;
        [| discriminate].
      intros S. apply step_physics_spec in S. destruct S as (-> & Lg & F).
      cbn in Lg, F. rewrite Lg, <- (Forall2_length F), (for_each_opt_length _ _ _ A).
      auto.
  - apply timer_test_false in T.
    destruct (Nat.ltb_spec 420 (Generation.last_gene g + 1)) as [? | _]; [lia |].
    intros S. apply step_physics_spec in S. destruct S as (-> & Lg & F).
    cbn in Lg, F. rewrite Lg, <- (Forall2_length F).
    repeat split. discriminate.
Qed.

Lemma next_generation_size (s s' : Solver.t) (r r' : Random.t) :
  Solver.next_generation s r = Some (s', r') ->
  Solver.population s' = Solver.population s /\
  Solver.generation_n s' = (Solver.generation_n s + 1)%nat /\
  Generation.last_gene (Solver.generation s') = 0%nat /\
  List.length (Generation.population (Solver.generation s')) = Solver.population s'.
Proof.
  intros N.
  destruct (next_generation_balls _ _ _ _ N) as (_ & _ & _ & _ & Lg & Pop & Gn & Len & _).
  rewrite Pop. auto.
Qed.

(** What [Solver.update] does to the counters. *)
Lemma solver_update_cases (dt : R) (s s' : Solver.t) (r r' : Random.t) :
  Solver.update dt s r = Some (s', r') ->
  exists g is_done,
    Generation.update dt (Solver.generation s) = Some (g, is_done) /\
    Solver.population s' = Solver.population s /\
    (is_done = false ->
     s' = Solver.set_generation s g /\ r' = r) /\
    (is_done = true ->
     Solver.next_generation (Solver.set_generation s g) r = Some (s', r')).
Proof.
  unfold Solver.update.
  destruct (Generation.update dt (Solver.generation s)) as [[g d]|]; [| discriminate].
  intros U. exists g, d. split; [reflexivity |].
  destruct d.
  - unfold bind, lift in U. cbn [Solver.generation Solver.set_generation] in U.
    destruct (Generation.highest_fitness g); [| discriminate].
    split; [apply next_generation_size in U; apply U |].
    split; [discriminate | intros _; exact U].
  - injection U as <- <-. split; [reflexivity |].
    split; [auto | discriminate].
Qed.

(** X8. Whatever the generation, a call of [Generation.update] that
    returns leaves the timer at 0 when it was at 420 and one higher
    otherwise, keeps the number of balls, and returns true only when the
    timer wraps.  So in every reachable generation the timer is at most
    420. *)
Theorem shot_timer_bounded :
  (forall (dt : R) (g g' : Generation.t) (is_done : bool),
     Generation.update dt g = Some (g', is_done) ->
     Generation.last_gene g' =
       (if (420 <? Generation.last_gene g + 1)%nat
        then 0 else Generation.last_gene g + 1)%nat /\
     List.length (Generation.population g') = List.length (Generation.population g) /\
     (is_done = true -> Generation.last_gene g' = 0%nat)) /\
  (forall g : Generation.t, gen_reachable g -> (Generation.last_gene g <= 420)%nat) /\
  (forall s : Solver.t,
     reachable s -> (Generation.last_gene (Solver.generation s) <= 420)%nat).
Proof.
  assert (U : forall dt g g' d, Generation.update dt g = Some (g', d) ->
                (Generation.last_gene g' <= 420)%nat).
  { intros dt g g' d H. apply generation_update_timer in H. destruct H as (E & _).
    rewrite E. destruct (Nat.ltb_spec 420 (Generation.last_gene g + 1)); lia. }
  split; [| split].
  - intros dt g g' d H. apply generation_update_timer in H.
    destruct H as (E & L & D). split; [exact E |]. split; [exact L |].
    intros Hd. rewrite E.
    destruct (Nat.ltb_spec 420 (Generation.last_gene g + 1)); [reflexivity |].
    specialize (D Hd). lia.
  - induction 1 as [n r r' g I | dt g g' d _ _ H].
    + destruct (Generation_init_spec n r) as (g0 & I' & Lg & _).
      rewrite I in I'. injection I' as <- _. lia.
    + eapply U; eassumption.
  - induction 1 as [n r r' s I | dt r r' s s' _ _ H | r r' s s' _ _ N
                    | dt s g d _ _ H].
    + unfold Solver.init, bind, ret in I.
      destruct (Generation_init_spec n r) as (g0 & I' & Lg & _).
      rewrite I' in I. injection I as <- _. simpl. lia.
    + destruct (solver_update_cases _ _ _ _ _ H) as (g & d & G & _ & Hf & Ht).
      destruct d.
      * apply next_generation_size in Ht; [| reflexivity]. lia.
      * destruct (Hf eq_refl) as (-> & _). simpl. eapply U; eassumption.
    + apply next_generation_size in N. lia.
    + simpl. eapply U; eassumption.
Qed.

Lemma shot_timer_bounded_witness :
  (Generation.last_gene (Solver.generation vertical_solver) <= 420)%nat.
Proof.
  destruct shot_timer_bounded as (_ & _ & H).
  apply (H vertical_solver vertical_solver_reachable).
Defined.

(** X9. In every reachable solver the generation holds exactly
    [Solver.population] balls; so when the solver was made for at least
    one ball, [highest_fitness], which the main loop calls for its label,
    returns a number in [0, 1]. *)
Theorem population_size_invariant :
  forall s : Solver.t,
    reachable s ->
    List.length (Generation.population (Solver.generation s)) = Solver.population s /\
    ((1 <= Solver.population s)%nat ->
     exists m : R,
       Generation.highest_fitness (Solver.generation s) = Some m /\ 0 <= m <= 1).
Proof.
  assert (Size : forall s, reachable s ->
            List.length (Generation.population (Solver.generation s)) = Solver.population s).
  { induction 1 as [n r r' s I | dt r r' s s' _ IH H | r r' s s' _ IH N
                    | dt s g d _ IH H].
    - unfold Solver.init, bind, ret in I.
      destruct (Generation_init_spec n r) as (g0 & I' & _ & Len & _).
      rewrite I' in I. injection I as <- _. exact Len.
    - destruct (solver_update_cases _ _ _ _ _ H) as (g & d & G & Pop & Hf & Ht).
      destruct d.
      + apply next_generation_size in Ht; [| reflexivity]. apply Ht.
      + destruct (Hf eq_refl) as (-> & _). simpl.
        apply generation_update_timer in G. destruct G as (_ & L & _). congruence.
    - apply next_generation_size in N. apply N.
    - simpl. apply generation_update_timer in H. destruct H as (_ & L & _). congruence. }
  intros s H. split; [apply Size; exact H |].
  intros Hn.
  assert (NE : Generation.population (Solver.generation s) <> []).
  { intros E. specialize (Size s H). rewrite E in Size. simpl in Size. lia. }
  destruct (winner_spec _ NE) as (w & _ & _ & _ & Hh & _).
  exists (Basketball.fitness w). split; [exact Hh | apply fitness_bounds].
Qed.

Lemma population_size_invariant_witness :
  exists m : R,
    Generation.highest_fitness (Solver.generation vertical_solver) = Some m /\
    0 <= m <= 1.
Proof.
  apply (population_size_invariant vertical_solver vertical_solver_reachable).
  simpl. lia.
Defined.

(** X10. A call of [Solver.update] that returns never changes
    [population]; it leaves [generation_n] as it was, draws no random
    number and stores the updated generation when the generation is not
    finished, and it adds exactly 1 to [generation_n] and starts a
    generation with the timer at 0 when it is. *)
Theorem solver_update_counters :
  forall (dt : R) (s s' : Solver.t) (r r' : Random.t),
    Solver.update dt s r = Some (s', r') ->
    exists (g : Generation.t) (is_done : bool),
      Generation.update dt (Solver.generation s) = Some (g, is_done) /\
      Solver.population s' = Solver.population s /\
      (is_done = false ->
       Solver.generation_n s' = Solver.generation_n s /\
       Solver.generation s' = g /\ r' = r) /\
      (is_done = true ->
       Solver.generation_n s' = (Solver.generation_n s + 1)%nat /\
       Generation.last_gene (Solver.generation s') = 0%nat /\
       List.length (Generation.population (Solver.generation s')) =
         Solver.population s).
Proof.
  intros dt s s' r r' H.
  destruct (solver_update_cases _ _ _ _ _ H) as (g & d & G & Pop & Hf & Ht).
  exists g, d. split; [exact G |]. split; [exact Pop |]. split.
  - intros E. destruct (Hf E) as (-> & ->). auto.
  - intros E. apply next_generation_size in Ht; [| exact E].
    destruct Ht as (P & Gn & Lg & Len). simpl in *. rewrite Len, P. auto.
Qed.

Lemma solver_update_counters_witness :
  exists (s' : Solver.t) (r' : Random.t),
    Solver.update HZ vertical_solver vertical_source = Some (s', r') /\
    Solver.population s' = 1%nat /\ Solver.generation_n s' = 0%nat.
Proof.
  destruct vertical_ball_spec as (V & Vt & Gi).
  destruct (vertical_update_total HZ 1 (Generation.mk [vertical_ball] 0))
    as (g' & d & U & _).
  { lia. } { discriminate. }
  { unfold lockstep; simpl. constructor; [exact Gi | constructor]. }
  { simpl. constructor; [exact V | constructor]. }
  { simpl. constructor; [exact Vt | constructor]. }
  assert (D : d = false).
  { apply generation_update_timer in U. destruct U as (_ & _ & D).
    destruct d; [| reflexivity]. specialize (D eq_refl). simpl in D. lia. }
  subst d.
  assert (E : Solver.update HZ vertical_solver vertical_source =
              Some (Solver.set_generation vertical_solver g', vertical_source)).
  { unfold Solver.update.
    change (Solver.generation vertical_solver) with (Generation.mk [vertical_ball] 0).
    rewrite U. reflexivity. }
  exists (Solver.set_generation vertical_solver g'), vertical_source.
  split; [exact E |].
  destruct (solver_update_counters _ _ _ _ _ E) as (g & d & G & Pop & Hf & _).
  split; [exact Pop |].
  change (Solver.generation vertical_solver) with (Generation.mk [vertical_ball] 0) in G.
  rewrite U in G. injection G as <- <-.
  destruct (Hf eq_refl) as (Gn & _). exact Gn.
Defined.

(** ** A generation without balls *)

Lemma empty_update (dt : R) (t : nat) :
  Generation.update dt (Generation.mk [] t) =
    if (420 <? t + 1)%nat then None else Some (Generation.mk [] (t + 1), false).
Proof.
  unfold Generation.update.
  cbn [Generation.last_gene Generation.set_last_gene Generation.population].
  destruct (Rgtb (INR (t + 1)) (FPS * SHOT_DURATION)) eqn:T.
  - apply timer_test in T.
    destruct (Nat.ltb_spec 420 (t + 1)); [reflexivity | lia].
  - apply timer_test_false in T.
    destruct (Nat.ltb_spec 420 (t + 1)); [lia | reflexivity].
Qed.

Lemma empty_run (dts : list R) :
  forall t : nat,
    (t <= 420)%nat ->
    Generation.run dts (Generation.mk [] t) =
      if (420 <? t + List.length dts)%nat then None
      else Some (Generation.mk [] (t + List.length dts),
                 repeat false (List.length dts)).
Proof.
  induction dts as [| dt dts IH]; intros t Ht.
  - cbn [Generation.run List.length repeat]. rewrite Nat.add_0_r.
    destruct (Nat.ltb_spec 420 t); [lia | reflexivity].
  - cbn [Generation.run List.length repeat]. rewrite empty_update.
    destruct (Nat.ltb_spec 420 (t + 1)) as [H1 | H1].
    + destruct (Nat.ltb_spec 420 (t + S (List.length dts))); [reflexivity | lia].
    + rewrite (IH (t + 1)%nat H1).
      replace (t + 1 + List.length dts)%nat with (t + S (List.length dts))%nat by lia.
      destruct (Nat.ltb_spec 420 (t + S (List.length dts))); reflexivity.
Qed.

(** X11. [Generation(0)] is constructed without error, and its first 420
    calls of [update] return false; the 421st call reads [population[0]]
    and raises, so every run of more than 420 calls raises. *)
Theorem empty_generation_raises :
  forall r : Random.t,
    Generation.init 0 r = Some (Generation.mk [] 0, r) /\
    forall dts : list R,
      Generation.run dts (Generation.mk [] 0) =
        if (420 <? List.length dts)%nat then None
        else Some (Generation.mk [] (List.length dts),
                   repeat false (List.length dts)).
Proof.
  intros r. split.
  - reflexivity.
  - intros dts. apply (empty_run dts 0). lia.
Qed.

(** ** What a generation never changes in its balls *)

Lemma same_ball_later_refl (b : Basketball.t) : same_ball_later b b.
Proof. unfold same_ball_later. repeat split; lia. Qed.

Lemma same_ball_later_trans (a b c : Basketball.t) :
  same_ball_later a b -> same_ball_later b c -> same_ball_later a c.
Proof.
  unfold same_ball_later.
  intros (D1 & S1 & G1 & M1 & I1 & R1 & E1 & F1 & Fr1)
         (D2 & S2 & G2 & M2 & I2 & R2 & E2 & F2 & Fr2).
  repeat split; try congruence; lia.
Qed.

Lemma apply_gene_later (b b' : Basketball.t) :
  Basketball.apply_gene b = Some b' -> same_ball_later b b'.
Proof.
  unfold Basketball.apply_gene. destruct (Nat.eqb _ _).
  - intros [= <-]. apply same_ball_later_refl.
  - destruct (nth_error (Basketball.gene_dir b) _); [| discriminate].
    destruct (nth_error (Basketball.gene_strength b) _); [| discriminate].
    intros [= <-]. unfold same_ball_later; cbn. repeat split; lia.
Qed.

Lemma update_later (dt : R) (b b' : Basketball.t) :
  Basketball.update dt b = Some b' -> same_ball_later b b'.
Proof.
  unfold Basketball.update.
  set (b1 := Basketball.integrate_acceleration dt b).
  set (fv := Vector2.scale (Basketball.velocity b1) dt).
  destruct (Basketball.resolve_hoop fv (Basketball.resolve_walls fv b1)) as [b2|] eqn:H;
    [| discriminate].
  intros [= <-].
  apply resolve_hoop_frame in H.
  destruct H as (_ & _ & Ms & Im & Rd & El & Ff & Fr & G1 & G2 & G3).
  destruct (resolve_walls_frame fv b1)
    as (_ & _ & Ms' & Im' & Rd' & El' & Ff' & Fr' & G1' & G2' & G3').
  unfold same_ball_later, Basketball.integrate_velocity.
  cbn [Basketball.mass Basketball.invmass Basketball.radius Basketball.elasticity
       Basketball.fframe Basketball.frame Basketball.gene_i Basketball.gene_dir
       Basketball.gene_strength Basketball.set_force Basketball.set_position
       Basketball.set_velocity].
  rewrite Ms, Ms', Im, Im', Rd, Rd', El, El', Ff, Ff', Fr, Fr', G1, G1', G2, G2', G3, G3'.
  repeat split. apply Nat.le_refl.
Qed.

Lemma Forall2_refl_on {A} (R : A -> A -> Prop) (l : list A) :
  (forall a, R a a) -> Forall2 R l l.
Proof. intros H. induction l; constructor; auto. Qed.

Lemma Forall2_trans_on {A} (R : A -> A -> Prop) (l m n : list A) :
  (forall a b c, R a b -> R b c -> R a c) ->
  Forall2 R l m -> Forall2 R m n -> Forall2 R l n.
Proof.
  intros T F. revert n. induction F; intros n G; inversion G; subst; constructor; eauto.
Qed.

Lemma generation_update_later (dt : R) (g g' : Generation.t) (is_done : bool) :
  Generation.update dt g = Some (g', is_done) ->
  Forall2 same_ball_later (Generation.population g) (Generation.population g').
Proof.
  assert (Phys : forall g1 g2 d, Generation.step_physics dt g1 = Some (g2, d) ->
            Forall2 same_ball_later (Generation.population g1) (Generation.population g2)).
  { intros g1 g2 d S. apply step_physics_spec in S. destruct S as (_ & _ & F).
    eapply Forall2_impl; [| exact F]. intros a b. apply update_later. }
  unfold Generation.update.
  cbn [Generation.last_gene Generation.set_last_gene Generation.population].
  destruct (Rgtb _ _).
  - destruct (Generation.population g) as [| ball0 rest] eqn:P; [discriminate |].
    destruct (Nat.eqb _ 3).
    + intros [= <- <-]. cbn. rewrite ?P. apply Forall2_refl_on, same_ball_later_refl.
    + destruct (for_each_opt Basketball.apply_gene (ball0 :: rest)) as [balls|] eqn:A;
        [| discriminate].
      intros S. apply Phys in S. cbn in S.
      apply for_each_opt_Forall2 in A.
      eapply Forall2_trans_on; [apply same_ball_later_trans | | exact S].
      eapply Forall2_impl; [| exact A]. intros a b. apply apply_gene_later.
  - intros S. apply Phys in S. exact S.
Qed.

(** X12. Through any run of [Generation.update], ball for ball in
    population order, the gene lists, the mass, the radius, the
    elasticity and the animation frame stay what they were, and the gene
    index never goes down: a generation never rewrites its genes. *)
Theorem generation_keeps_genes :
  forall (dts : list R) (g g' : Generation.t) (flags : list bool),
    Generation.run dts g = Some (g', flags) ->
    Forall2 same_ball_later (Generation.population g) (Generation.population g') /\
    List.length flags = List.length dts.
Proof.
  induction dts as [| dt dts IH]; intros g g' flags R; simpl in R.
  - injection R as <- <-. split; [| reflexivity].
    apply Forall2_refl_on, same_ball_later_refl.
  - destruct (Generation.update dt g) as [[g1 d]|] eqn:U; [| discriminate].
    destruct (Generation.run dts g1) as [[g2 fl]|] eqn:R1; [| discriminate].
    injection R as <- <-.
    destruct (IH g1 g2 fl R1) as (F & L).
    split; [| simpl; congruence].
    eapply Forall2_trans_on; [apply same_ball_later_trans | | exact F].
    eapply generation_update_later; exact U.
Qed.

Lemma generation_keeps_genes_witness :
  exists (g' : Generation.t) (b' : Basketball.t),
    Generation.population g' = [b'] /\
    Basketball.gene_dir b' = [90; 90; 90]%Z /\
    Basketball.gene_strength b' = [65; 65; 65]%Z.
Proof.
  destruct vertical_ball_spec as (V & Vt & Gi).
  destruct (vertical_run_total (repeat HZ 500) 1 (Generation.mk [vertical_ball] 0))
    as (g' & flags & R).
  { lia. } { discriminate. }
  { unfold lockstep; simpl. constructor; [exact Gi | constructor]. }
  { simpl. constructor; [exact V | constructor]. }
  { simpl. constructor; [exact Vt | constructor]. }
  destruct (generation_keeps_genes _ _ _ _ R) as (F & _).
  cbn [Generation.population] in F.
  inversion F as [| a b' l m (D & S & _) Fn]; subst. inversion Fn; subst.
  exists g', b'. split; [symmetry; assumption |]. split; assumption.
Defined.

(** ** The first generation of a solver *)

Lemma solver_run_timing (dts : list R) :
  forall (c t : nat) (s s' : Solver.t) (r r' : Random.t),
    (1 <= c <= 3)%nat -> (t <= 420)%nat ->
    lockstep c (Solver.generation s) ->
    Forall valid_genes (Generation.population (Solver.generation s)) ->
    Generation.last_gene (Solver.generation s) = t ->
    (421 * (c - 1) + t + List.length dts <= 1262)%nat ->
    Solver.run dts s r = Some (s', r') ->
    r' = r /\
    Solver.generation_n s' = Solver.generation_n s /\
    Solver.population s' = Solver.population s /\
    List.length (Generation.population (Solver.generation s')) =
      List.length (Generation.population (Solver.generation s)) /\
    exists c' t',
      (1 <= c' <= 3)%nat /\ (t' <= 420)%nat /\
      lockstep c' (Solver.generation s') /\
      Forall valid_genes (Generation.population (Solver.generation s')) /\
      Generation.last_gene (Solver.generation s') = t' /\
      (421 * (c' - 1) + t' = 421 * (c - 1) + t + List.length dts)%nat.
Proof.
  induction dts as [| dt dts IH]; intros c t s s' r r' Hc Ht L V Lg Hk R.
  - cbn [Solver.run] in R. unfold ret in R. injection R as <- <-.
    repeat split. exists c, t. simpl. repeat split; try assumption; lia.
  - cbn [Solver.run] in R. unfold bind in R.
    destruct (Solver.update dt s r) as [[s1 r1]|] eqn:U; [| discriminate].
    destruct (solver_update_cases _ _ _ _ _ U) as (g & d & G & Pop & Hf & _).
    simpl List.length in Hk.
    destruct (Generation_update_cases dt c _ g d ltac:(lia) L V G)
      as (V1 & Len & [(T & -> & Lg1 & L1) | [(T & C & -> & Lg1 & L1) | (T & C & _)]]).
    + destruct (Hf eq_refl) as (-> & ->).
      destruct (IH c (t + 1)%nat (Solver.set_generation s g) s' r r') as (Er & Gn & Pn & Len' & c' & t' & H);
        cbn [Solver.generation Solver.set_generation]; try assumption; try lia.
      cbn [Solver.generation Solver.set_generation Solver.generation_n
           Solver.population] in *.
      repeat split; try assumption; try congruence.
      exists c', t'. simpl List.length. repeat split; try apply H; lia.
    + destruct (Hf eq_refl) as (-> & ->).
      destruct (IH (c + 1)%nat 0%nat (Solver.set_generation s g) s' r r') as (Er & Gn & Pn & Len' & c' & t' & H);
        cbn [Solver.generation Solver.set_generation]; try assumption; try lia.
      cbn [Solver.generation Solver.set_generation Solver.generation_n
           Solver.population] in *.
      repeat split; try assumption; try congruence.
      exists c', t'. simpl List.length. repeat split; try apply H; lia.
    + lia.
Qed.

(** The call of [Solver.update] that finishes a generation returns. *)
Lemma solver_update_finishes (dt : R) (s : Solver.t) (r : Random.t) :
  Generation.population (Solver.generation s) <> [] ->
  lockstep 3 (Solver.generation s) ->
  Forall valid_genes (Generation.population (Solver.generation s)) ->
  Generation.last_gene (Solver.generation s) = 420%nat ->
  exists s' r',
    Solver.update dt s r = Some (s', r') /\
    Solver.generation_n s' = (Solver.generation_n s + 1)%nat /\
    Solver.population s' = Solver.population s /\
    Generation.last_gene (Solver.generation s') = 0%nat /\
    List.length (Generation.population (Solver.generation s')) = Solver.population s /\
    lockstep 1 (Solver.generation s').
Proof.
  intros NE L V T. unfold Solver.update.
  rewrite (update_done dt _ NE L T).
  cbn [Solver.generation Solver.set_generation].
  unfold bind, lift.
  destruct (winner_spec (Generation.set_last_gene (Solver.generation s) 0) NE)
    as (w & _ & _ & _ & -> & _).
  destruct (next_generation_total
              (Solver.set_generation s (Generation.set_last_gene (Solver.generation s) 0))
              r NE V) as (s' & r' & N).
  rewrite N. exists s', r'. split; [reflexivity |].
  destruct (next_generation_size _ _ _ _ N) as (P & Gn & Lg & Len).
  destruct (next_generation_inv _ _ _ _ V N) as (L1 & _).
  cbn [Solver.population Solver.generation_n Solver.set_generation] in *.
  repeat split; try assumption. congruence.
Qed.

(** X13. [Solver(n)] with at least one ball starts at generation 0.
    Through its first 1262 calls of [update] the generation counter stays
    0 and no random number is drawn.  After 1262 completed calls the
    1263rd returns, the counter is 1, and the new generation has [n]
    balls, all at gene index 1, with the timer at 0. *)
Theorem first_generation_cycle :
  forall (n : nat) (r : Random.t),
    (1 <= n)%nat ->
    exists (s0 : Solver.t) (r0 : Random.t),
      Solver.init n r = Some (s0, r0) /\
      Solver.generation_n s0 = 0%nat /\
      forall (dts : list R) (s : Solver.t) (r' : Random.t),
        (List.length dts <= 1262)%nat ->
        Solver.run dts s0 r0 = Some (s, r') ->
        Solver.generation_n s = 0%nat /\ r' = r0 /\ Solver.population s = n /\
        (List.length dts = 1262%nat ->
         forall dt : R,
         exists (s' : Solver.t) (r'' : Random.t),
           Solver.update dt s r0 = Some (s', r'') /\
           Solver.generation_n s' = 1%nat /\
           Solver.population s' = n /\
           Generation.last_gene (Solver.generation s') = 0%nat /\
           List.length (Generation.population (Solver.generation s')) = n /\
           lockstep 1 (Solver.generation s')).
Proof.
  intros n r Hn.
  destruct (Generation_init_spec n r) as (g0 & I & Lg & Len & F).
  exists (Solver.mk n g0 0), (Random.advance (6 * n) r).
  split; [unfold Solver.init, bind, ret; rewrite I; reflexivity |].
  split; [reflexivity |].
  intros dts s r' Hd R.
  assert (L : lockstep 1 g0).
  { unfold lockstep. eapply Forall_impl; [| exact F]. apply launched_gene_i. }
  assert (V : Forall valid_genes (Generation.population g0)).
  { eapply Forall_impl; [| exact F]. intros b H; apply H. }
  destruct (solver_run_timing dts 1 0 (Solver.mk n g0 0) s _ r'
              ltac:(lia) ltac:(lia) L V Lg ltac:(lia) R)
    as (Er & Gn & Pn & Len' & c' & t' & Hc' & Ht' & L' & V' & Lg' & K).
  cbn [Solver.generation Solver.generation_n Solver.population] in *.
  split; [exact Gn |]. split; [exact Er |]. split; [exact Pn |].
  intros E dt.
  assert (c' = 3%nat) by lia. assert (t' = 420%nat) by lia. subst c' t'.
  destruct (solver_update_finishes dt s (Random.advance (6 * n) r))
    as (s' & r'' & U & Gn' & Pn' & Lg'' & Len'' & L''); try assumption.
  { intros N. rewrite N in Len'. simpl in Len'. lia. }
  exists s', r''. split; [exact U |].
  split; [lia |]. split; [congruence |]. split; [exact Lg'' |].
  split; [congruence | exact L''].
Qed.

(** A run of the generation without a true flag is a run of the solver. *)
Lemma solver_run_of_generation_run (dts : list R) :
  forall (s : Solver.t) (r : Random.t) (g : Generation.t),
    Generation.run dts (Solver.generation s) = Some (g, repeat false (List.length dts)) ->
    Solver.run dts s r = Some (Solver.set_generation s g, r).
Proof.
  induction dts as [| dt dts IH]; intros s r g R.
  - cbn in R. injection R as <-. destruct s; reflexivity.
  - cbn [Generation.run List.length repeat] in R.
    destruct (Generation.update dt (Solver.generation s)) as [[g1 d]|] eqn:U;
      [| discriminate].
    destruct (Generation.run dts g1) as [[g2 fl]|] eqn:R1; [| discriminate].
    injection R as -> -> ->.
    cbn [Solver.run]. unfold bind, Solver.update. rewrite U. unfold ret.
    rewrite (IH (Solver.set_generation s g1) r g R1). reflexivity.
Qed.

Lemma first_generation_cycle_witness :
  exists (s s' : Solver.t) (r'' : Random.t),
    Solver.run (repeat HZ 1262) vertical_solver (Random.advance 6 vertical_source)
      = Some (s, Random.advance 6 vertical_source) /\
    Solver.generation_n s = 0%nat /\
    Solver.update HZ s (Random.advance 6 vertical_source) = Some (s', r'') /\
    Solver.generation_n s' = 1%nat.
Proof.
  destruct (first_generation_cycle 1 vertical_source (le_n 1))
    as (s0 & r0 & I & _ & H).
  rewrite vertical_solver_init in I. injection I as <- <-.
  destruct vertical_ball_spec as (V & Vt & Gi).
  assert (L1 : lockstep 1 (Generation.mk [vertical_ball] 0)).
  { unfold lockstep; simpl. constructor; [exact Gi | constructor]. }
  assert (V1 : Forall valid_genes [vertical_ball]) by (constructor; [exact V | constructor]).
  destruct (vertical_run_total (repeat HZ 1262) 1 (Generation.mk [vertical_ball] 0))
    as (g & flags & R); try assumption.
  { lia. } { discriminate. }
  { simpl. constructor; [exact Vt | constructor]. }
  assert (K : (421 * (1 - 1) + 0 + List.length (repeat HZ 1262) <= 1262)%nat)
    by (rewrite repeat_length; lia).
  destruct (run_timing (repeat HZ 1262) 1 0 (Generation.mk [vertical_ball] 0) g flags
              ltac:(lia) ltac:(lia) L1 V1 eq_refl K R) as (Fl & _).
  subst flags.
  pose proof (solver_run_of_generation_run (repeat HZ 1262) vertical_solver
                (Random.advance 6 vertical_source) g R) as SR.
  assert (K' : (List.length (repeat HZ 1262) <= 1262)%nat)
    by (rewrite repeat_length; lia).
  destruct (H (repeat HZ 1262) _ _ K' SR) as (Gn & _ & _ & Fin).
  destruct (Fin (repeat_length HZ 1262) HZ) as (s' & r'' & U & Gn' & _).
  exists (Solver.set_generation vertical_solver g), s', r''.
  repeat split; assumption.
Defined.

(** ** Drawing *)

Lemma lerp_guard (b : Basketball.t) :
  Rleb 0 (Basketball.fitness b) && Rleb (Basketball.fitness b) 1 = true.
Proof.
  destruct (fitness_bounds b) as [H0 H1].
  apply Rleb_true in H0, H1. rewrite H0, H1. reflexivity.
Qed.

Lemma frame_guard (z : Z) :
  ((- basketball_frames_len <=? z) && (z <? basketball_frames_len))%Z = false <->
  (z < -165 \/ 165 <= z)%Z.
Proof.
  unfold basketball_frames_len.
  destruct (Z.leb_spec (-165) z), (Z.ltb_spec z 165); simpl; split;
    intros; try discriminate; try reflexivity; lia.
Qed.

(** X14. [Basketball.draw] raises exactly when [frame] is not an index of
    the 165 frames, that is below -165 or at least 165; the blend amount
    of the glow is the fitness, which is always within [0, 1], so the
    colour never raises.  When [draw] returns it adds [velocity.x] to
    [fframe], sets [frame] to [int(fframe) % 165], which is within
    [0, 165), and changes nothing else. *)
Theorem draw_frame_in_range :
  forall b : Basketball.t,
    (Basketball.draw b = None <->
     (Basketball.frame b < -165 \/ 165 <= Basketball.frame b)%Z) /\
    forall (b' : Basketball.t) (d : Basketball.Drawn),
      Basketball.draw b = Some (b', d) ->
      Basketball.fframe b' = Basketball.fframe b + Vector2.x (Basketball.velocity b) /\
      Basketball.frame b' = (int_of_float (Basketball.fframe b') mod 165)%Z /\
      (0 <= Basketball.frame b' < 165)%Z /\
      b' = Basketball.set_frames b (Basketball.fframe b') (Basketball.frame b') /\
      Basketball.glow_amount d = Basketball.fitness b /\
      0 <= Basketball.glow_amount d <= 1 /\
      Basketball.sprite d = Basketball.frame b.
Proof.
  intros b. unfold Basketball.draw. rewrite lerp_guard.
  pose proof (frame_guard (Basketball.frame b)) as G.
  destruct ((- basketball_frames_len <=? Basketball.frame b)
            && (Basketball.frame b <? basketball_frames_len))%Z.
  - split.
    + split; [discriminate |]. intros H. apply G in H. discriminate.
    + intros b' d [= <- <-].
      cbn [Basketball.fframe Basketball.frame Basketball.set_frames
           Basketball.glow_amount Basketball.sprite].
      unfold basketball_frames_len.
      repeat split; try apply fitness_bounds;
        apply Z.mod_pos_bound; reflexivity.
  - split.
    + split; [intros _; apply G; reflexivity | reflexivity].
    + intros b' d H. discriminate.
Qed.

Lemma draw_frame_in_range_witness :
  exists (b' : Basketball.t) (d : Basketball.Drawn),
    Basketball.draw vertical_ball = Some (b', d) /\
    (0 <= Basketball.frame b' < 165)%Z /\
    Basketball.draw (Basketball.set_frames vertical_ball 0 165) = None.
Proof.
  destruct (draw_frame_in_range vertical_ball) as [N S].
  destruct (Basketball.draw vertical_ball) as [[b' d]|] eqn:E.
  - exists b', d. split; [reflexivity |].
    split; [apply (S b' d eq_refl) |].
    apply (draw_frame_in_range (Basketball.set_frames vertical_ball 0 165)).
    right. simpl. lia.
  - exfalso. destruct N as [N _]. specialize (N eq_refl). simpl in N. lia.
Defined.

(** ** One pass of the main loop *)

Lemma draw_ok (b : Basketball.t) :
  frame_ok b ->
  exists b' d,
    Basketball.draw b = Some (b', d) /\ frame_ok b' /\
    0 <= Basketball.glow_amount d <= 1 /\
    (0 <= Basketball.sprite d < 165)%Z.
Proof.
  intros F. unfold Basketball.draw. rewrite lerp_guard.
  pose proof (frame_guard (Basketball.frame b)) as G.
  unfold frame_ok, basketball_frames_len in F.
  destruct ((- basketball_frames_len <=? Basketball.frame b)
            && (Basketball.frame b <? basketball_frames_len))%Z.
  2: { destruct G as [G _]. specialize (G eq_refl). lia. }
  eexists _, _. split; [reflexivity |].
  unfold frame_ok, basketball_frames_len.
  cbn [Basketball.frame Basketball.set_frames Basketball.glow_amount Basketball.sprite].
  split; [apply Z.mod_pos_bound; reflexivity |].
  split; [apply fitness_bounds | exact F].
Qed.

Lemma draw_balls_ok (l : list Basketball.t) :
  Forall frame_ok l ->
  exists l' ds,
    Generation.draw_balls l = Some (l', ds) /\
    Forall frame_ok l' /\
    List.length l' = List.length l /\
    List.length ds = List.length l /\
    Forall (fun d => 0 <= Basketball.glow_amount d <= 1 /\
                     (0 <= Basketball.sprite d < 165)%Z) ds.
Proof.
  induction 1 as [| b l Hb _ (l' & ds & E & F & L1 & L2 & D)].
  - exists [], []. repeat split; constructor.
  - destruct (draw_ok b Hb) as (b' & d & Eb & Fb & Gd & Sd).
    exists (b' :: l'), (d :: ds). cbn [Generation.draw_balls]. rewrite Eb, E.
    split; [reflexivity |]. split; [constructor; assumption |].
    split; [simpl; congruence |]. split; [simpl; congruence |].
    constructor; [split; assumption | exact D].
Qed.

Lemma launched_frame_ok (b : Basketball.t) : launched b -> frame_ok b.
Proof.
  intros (_ & d & s & _ & _ & E). rewrite E.
  unfold frame_ok, basketball_frames_len. simpl. lia.
Qed.

Lemma later_frame_ok (l l' : list Basketball.t) :
  Forall2 same_ball_later l l' -> Forall frame_ok l -> Forall frame_ok l'.
Proof.
  apply Forall2_Forall_r.
  intros a b Fa (_ & _ & _ & _ & _ & _ & _ & _ & Fr).
  unfold frame_ok in *. rewrite Fr. exact Fa.
Qed.

(** What a pass of the main loop keeps: the size of the population and
    valid frame indices. *)
Lemma solver_update_keeps (dt : R) (s s' : Solver.t) (r r' : Random.t) :
  List.length (Generation.population (Solver.generation s)) = Solver.population s ->
  Forall frame_ok (Generation.population (Solver.generation s)) ->
  Solver.update dt s r = Some (s', r') ->
  Solver.population s' = Solver.population s /\
  List.length (Generation.population (Solver.generation s')) = Solver.population s' /\
  Forall frame_ok (Generation.population (Solver.generation s')).
Proof.
  intros Len F U.
  destruct (solver_update_cases _ _ _ _ _ U) as (g & d & G & Pop & Hf & Ht).
  split; [exact Pop |].
  destruct d.
  - specialize (Ht eq_refl).
    split; [apply (next_generation_size _ _ _ _ Ht) |].
    destruct (next_generation_balls _ _ _ _ Ht) as (w & g0 & _ & _ & _ & _ & _ & _ & Hk).
    apply Forall_forall. intros ball Hb.
    apply In_nth_error in Hb. destruct Hb as (k & Hb).
    destruct (Hk k ball Hb) as (fresh & _ & L & O).
    apply overwrite_genes_spec in O. destruct O as (_ & E & _).
    apply launched_frame_ok in L. unfold frame_ok in *. rewrite E. exact L.
  - destruct (Hf eq_refl) as (-> & _).
    cbn [Solver.generation Solver.set_generation Solver.population].
    split.
    + apply generation_update_timer in G. destruct G as (_ & L & _). congruence.
    + eapply later_frame_ok; [| exact F]. eapply generation_update_later; exact G.
Qed.

Lemma main_reachable_keeps (n : nat) (s : Solver.t) :
  main_reachable n s ->
  Solver.population s = n /\
  List.length (Generation.population (Solver.generation s)) = n /\
  Forall frame_ok (Generation.population (Solver.generation s)).
Proof.
  induction 1 as [r r' s I | r r' s s' shown _ (Pn & Len & F) P].
  - unfold Solver.init, bind, ret in I.
    destruct (Generation_init_spec n r) as (g0 & I' & _ & Len & Fl).
    rewrite I' in I. injection I as <- _.
    cbn [Solver.population Solver.generation].
    split; [reflexivity |]. split; [exact Len |].
    eapply Forall_impl; [| exact Fl]. apply launched_frame_ok.
  - unfold main_loop_body, bind in P.
    destruct (Solver.update HZ s r) as [[s1 r1]|] eqn:U; [| discriminate].
    destruct (solver_update_keeps HZ s s1 r r1) as (P1 & L1 & F1); try congruence.
    unfold lift, Generation.draw in P.
    destruct (draw_balls_ok _ F1) as (l' & ds & E & F' & Ll & _).
    rewrite E in P.
    cbn [Solver.generation Solver.set_generation] in P.
    destruct (Generation.highest_fitness _); [| discriminate].
    unfold ret in P. injection P as <- _ _.
    cbn [Solver.population Solver.generation Solver.set_generation
         Generation.population Generation.set_population].
    split; [congruence |]. split; [congruence | exact F'].
Qed.

(** X15. In the main loop of a solver made for at least one ball, the
    only call of a pass that can raise is [solver.update]: when it
    returns, drawing the generation and rendering the labels return too.
    The pass then draws one glow and one frame per ball, each blend
    amount within [0, 1] and each frame index within [0, 165), and the
    labels show the solver's generation counter, [n] and a fitness within
    [0, 1]. *)
Theorem main_loop_pass_completes :
  forall (n : nat) (s : Solver.t),
    (1 <= n)%nat ->
    main_reachable n s ->
    forall (r r1 : Random.t) (s1 : Solver.t),
      Solver.update HZ s r = Some (s1, r1) ->
      exists (s' : Solver.t) (shown : Shown),
        main_loop_body s r = Some (s', shown, r1) /\
        label_generation shown = Solver.generation_n s1 /\
        label_population shown = n /\
        0 <= label_fitness shown <= 1 /\
        List.length (balls_drawn shown) = n /\
        Forall (fun d => 0 <= Basketball.glow_amount d <= 1 /\
                         (0 <= Basketball.sprite d < 165)%Z) (balls_drawn shown).
Proof.
  intros n s Hn M r r1 s1 U.
  destruct (main_reachable_keeps n s M) as (Pn & Len & F).
  destruct (solver_update_keeps HZ s s1 r r1) as (P1 & L1 & F1); try congruence.
  destruct (draw_balls_ok _ F1) as (l' & ds & E & F' & Ll & Ld & D).
  unfold main_loop_body, bind, lift, Generation.draw. rewrite U, E.
  cbn [Solver.generation Solver.set_generation].
  assert (NE : Generation.population
                 (Generation.set_population (Solver.generation s1) l') <> []).
  { cbn. intros N. rewrite N in Ll. simpl in Ll. lia. }
  destruct (winner_spec _ NE) as (w & _ & _ & _ & -> & _).
  unfold ret. eexists _, _. split; [reflexivity |].
  cbn [label_generation label_population label_fitness balls_drawn
       Solver.generation_n Solver.population Solver.set_generation].
  split; [reflexivity |]. split; [congruence |].
  split; [apply fitness_bounds |]. split; [congruence | exact D].
Qed.

Lemma vertical_solver_update :
  exists s1, Solver.update HZ vertical_solver vertical_source = Some (s1, vertical_source).
Proof.
  destruct vertical_ball_spec as (V & Vt & Gi).
  destruct (vertical_update_total HZ 1 (Generation.mk [vertical_ball] 0))
    as (g' & d & U & _).
  { lia. } { discriminate. }
  { unfold lockstep; simpl. constructor; [exact Gi | constructor]. }
  { simpl. constructor; [exact V | constructor]. }
  { simpl. constructor; [exact Vt | constructor]. }
  assert (D : d = false).
  { apply generation_update_timer in U. destruct U as (_ & _ & D).
    destruct d; [| reflexivity]. specialize (D eq_refl). simpl in D. lia. }
  subst d. exists (Solver.set_generation vertical_solver g').
  unfold Solver.update.
  change (Solver.generation vertical_solver) with (Generation.mk [vertical_ball] 0).
  rewrite U. reflexivity.
Qed.

Lemma main_loop_pass_completes_witness :
  exists (s' : Solver.t) (shown : Shown),
    main_loop_body vertical_solver vertical_source = Some (s', shown, vertical_source) /\
    label_population shown = 1%nat /\
    List.length (balls_drawn shown) = 1%nat.
Proof.
  destruct vertical_solver_update as (s1 & U).
  destruct (main_loop_pass_completes 1 vertical_solver (le_n 1)
              (main_start 1 _ _ _ vertical_solver_init) _ _ _ U)
    as (s' & shown & P & _ & Lp & _ & Ld & _).
  exists s', shown. repeat split; assumption.
Defined.

(** ** [apply_gene] on a malformed ball *)

(** X16. [apply_gene] raises exactly when the gene index is not the
    length of [gene_dir] and is past the end of [gene_dir] or of
    [gene_strength]; a ball whose index is the length of [gene_dir] is
    returned as it is, whatever its lists hold. *)
Theorem apply_gene_raises_iff :
  forall b : Basketball.t,
    (Basketball.apply_gene b = None <->
     Basketball.gene_i b <> List.length (Basketball.gene_dir b) /\
     ((List.length (Basketball.gene_dir b) <= Basketball.gene_i b)%nat \/
      (List.length (Basketball.gene_strength b) <= Basketball.gene_i b)%nat)) /\
    (Basketball.apply_gene b = Some b <->
     Basketball.gene_i b = List.length (Basketball.gene_dir b)).
Proof.
  intros b. unfold Basketball.apply_gene.
  destruct (Nat.eqb_spec (Basketball.gene_i b) (List.length (Basketball.gene_dir b)))
    as [E | NE].
  - split; split; try discriminate; try tauto.
  - destruct (nth_error (Basketball.gene_dir b) (Basketball.gene_i b)) as [d|] eqn:Ed.
    + destruct (nth_error (Basketball.gene_strength b) (Basketball.gene_i b)) as [s|] eqn:Es.
      * assert (Hd : (Basketball.gene_i b < List.length (Basketball.gene_dir b))%nat)
          by (apply nth_error_Some; rewrite Ed; discriminate).
        assert (Hs : (Basketball.gene_i b < List.length (Basketball.gene_strength b))%nat)
          by (apply nth_error_Some; rewrite Es; discriminate).
        split; split; try discriminate; try tauto.
        -- intros (_ & [H | H]); lia.
        -- intros [= H]. apply (f_equal Basketball.gene_i) in H. simpl in H. lia.
      * apply nth_error_None in Es.
        split; split; try discriminate; tauto.
    + apply nth_error_None in Ed.
      split; split; try discriminate; tauto.
Qed.

(** ** The generation counter *)

(** X17. Over any run of [Solver.update] the population size of the
    solver is constant, and the generation counter never goes down and
    grows by at most one per call. *)
Theorem generation_counter_monotone :
  forall (dts : list R) (s s' : Solver.t) (r r' : Random.t),
    Solver.run dts s r = Some (s', r') ->
    Solver.population s' = Solver.population s /\
    (Solver.generation_n s <= Solver.generation_n s'
     <= Solver.generation_n s + List.length dts)%nat.
Proof.
  induction dts as [| dt dts IH]; intros s s' r r' R; cbn [Solver.run] in R.
  - unfold ret in R. injection R as <- _. simpl. split; [reflexivity | lia].
  - unfold bind in R.
    destruct (Solver.update dt s r) as [[s1 r1]|] eqn:U; [| discriminate].
    destruct (IH _ _ _ _ R) as (P & G).
    destruct (solver_update_cases _ _ _ _ _ U) as (g & d & _ & P1 & Hf & Ht).
    split; [congruence |]. simpl List.length.
    destruct d.
    + destruct (next_generation_size _ _ _ _ (Ht eq_refl)) as (_ & Gn & _).
      simpl in Gn. lia.
    + destruct (Hf eq_refl) as (E & _). rewrite E in G. simpl in G. lia.
Qed.

Lemma generation_counter_monotone_witness :
  exists s1,
    Solver.run [HZ] vertical_solver vertical_source = Some (s1, vertical_source) /\
    Solver.population s1 = 1%nat /\
    (Solver.generation_n s1 <= 1)%nat.
Proof.
  destruct vertical_solver_update as (s1 & U).
  assert (R : Solver.run [HZ] vertical_solver vertical_source = Some (s1, vertical_source)).
  { cbn [Solver.run]. unfold bind, ret. rewrite U. reflexivity. }
  exists s1. split; [exact R |].
  destruct (generation_counter_monotone _ _ _ _ _ R) as (P & _ & G).
  split; [exact P | exact G].
Defined.

(** ** Vertical shots *)

(** X18. A ball with no horizontal velocity and no horizontal force whose
    x is more than [radius + 0.3] short of 5.3 is out of reach of the
    hoop: [update] returns, and the ball keeps its x and has no horizontal
    velocity afterwards, whether or not it bounces off a wall. *)
Theorem vertical_motion_stays_vertical :
  forall (dt : R) (b : Basketball.t),
    Vector2.x (Basketball.velocity b) = 0 ->
    Vector2.x (Basketball.force b) = 0 ->
    0 <= Basketball.radius b ->
    Vector2.x (Basketball.position b) + Basketball.radius b + 0.3 < 5.3 ->
    exists b',
      Basketball.update dt b = Some b' /\
      Vector2.x (Basketball.position b') = Vector2.x (Basketball.position b) /\
      Vector2.x (Basketball.velocity b') = 0.
Proof.
  intros dt b Vx Fx Hr Hx.
  assert (V1 : Vector2.x (Basketball.velocity
                            (Basketball.integrate_acceleration dt b)) = 0).
  { unfold Basketball.integrate_acceleration, Vector2.add, Vector2.scale.
    cbn [Basketball.velocity Basketball.set_velocity Vector2.x].
    rewrite Vx, Fx. ring. }
  assert (Hhoop : Basketball.radius b + 0.3 <
                  distance (Basketball.net b) (predicted dt b)).
  { eapply Rlt_le_trans; [| apply length_ge_abs_x].
    unfold predicted, future_vel, Basketball.net, Vector2.sub, Vector2.add,
      Vector2.scale.
    cbn [Vector2.x Vector2.y]. rewrite V1.
    rewrite Rmax_left by lra. rewrite Rabs_pos_eq; lra. }
  rewrite (update_no_hoop dt b Hhoop).
  eexists. split; [reflexivity |].
  unfold Basketball.integrate_velocity.
  cbn [Basketball.position Basketball.velocity Basketball.set_force
       Basketball.set_position Basketball.set_velocity].
  destruct (resolve_walls_frame
              (Vector2.scale (Basketball.velocity
                                (Basketball.integrate_acceleration dt b)) dt)
              (Basketball.integrate_acceleration dt b)) as (P & _).
  rewrite P, resolve_walls_velocity, V1.
  unfold Vector2.add, Vector2.scale; cbn [Vector2.x Vector2.y].
  change (Basketball.position (Basketball.integrate_acceleration dt b))
    with (Basketball.position b).
  split; destruct (Basketball.crosses_x _ _); ring.
Qed.

Lemma vertical_motion_stays_vertical_witness :
  exists b',
    Basketball.update HZ vertical_ball = Some b' /\
    Vector2.x (Basketball.position b') = Vector2.x (Basketball.position vertical_ball).
Proof.
  destruct vertical_ball_spec as (_ & (Px & Vx & Fx & Rd & _) & _).
  destruct (vertical_motion_stays_vertical HZ vertical_ball Vx Fx) as (b' & U & P & _).
  - rewrite Rd. lra.
  - rewrite Px, Rd. lra.
  - exists b'. split; assumption.
Defined.

(** ** [next_generation] on an empty generation *)

(** X19. When the balls of the current generation have valid genes,
    [next_generation] raises exactly when that generation has no ball
    (the winner is read from an empty list); otherwise it returns a solver
    with the same population size and the generation counter one higher. *)
Theorem next_generation_raises_iff_empty :
  forall (s : Solver.t) (r : Random.t),
    Forall valid_genes (Generation.population (Solver.generation s)) ->
    (Solver.next_generation s r = None <->
     Generation.population (Solver.generation s) = []) /\
    (Generation.population (Solver.generation s) <> [] ->
     exists (s' : Solver.t) (r' : Random.t),
       Solver.next_generation s r = Some (s', r') /\
       Solver.population s' = Solver.population s /\
       Solver.generation_n s' = (Solver.generation_n s + 1)%nat /\
       List.length (Generation.population (Solver.generation s')) = Solver.population s).
Proof.
  intros s r V.
  assert (T : Generation.population (Solver.generation s) <> [] ->
              exists s' r',
                Solver.next_generation s r = Some (s', r') /\
                Solver.population s' = Solver.population s /\
                Solver.generation_n s' = (Solver.generation_n s + 1)%nat /\
                List.length (Generation.population (Solver.generation s')) =
                  Solver.population s).
  { intros NE. destruct (next_generation_total s r NE V) as (s' & r' & N).
    exists s', r'. split; [exact N |].
    destruct (next_generation_size _ _ _ _ N) as (P & Gn & _ & Len).
    repeat split; congruence. }
  split; [| exact T]. split.
  - intros N. destruct (Generation.population (Solver.generation s)) eqn:P;
      [reflexivity |].
    destruct T as (s' & r' & N' & _); [discriminate |]. congruence.
  - intros E. unfold Solver.next_generation, bind, lift.
    rewrite (winner_empty _ E). reflexivity.
Qed.

Lemma next_generation_raises_iff_empty_witness :
  Solver.next_generation (Solver.mk 0 (Generation.mk [] 0) 0) vertical_source = None /\
  exists s' r',
    Solver.next_generation vertical_solver vertical_source = Some (s', r') /\
    Solver.generation_n s' = 1%nat.
Proof.
  split.
  - apply (next_generation_raises_iff_empty (Solver.mk 0 (Generation.mk [] 0) 0)).
    + constructor.
    + reflexivity.
  - destruct vertical_ball_spec as (V & _ & _).
    destruct (next_generation_raises_iff_empty vertical_solver vertical_source) as [_ H].
    + constructor; [exact V | constructor].
    + destruct H as (s' & r' & N & _ & Gn & _); [discriminate |].
      exists s', r'. split; [exact N | exact Gn].
Defined.
